(** * twitch_overlay: microphone -> Whisper -> overlay pipeline

    A shallow embedding of [src/twitch_overlay.py] and the properties of its
    segmenter, line store, event stream and PCM conversion.

    The program runs three kinds of threads over shared state: the sound
    device's capture callback ([audio_callback]), the consumer loop
    ([process_audio]) and one generator per [/stream] connection
    ([event_stream]).  The shared state is the record [world]; each thread
    keeps its locals ([buffer], [prev]) in the record [system]; a schedule is
    a list of [action]s, each of them one atomic piece of a thread.  Every
    [with lock:] block of the source lies inside one action, so it is never
    interleaved with another one. *)

From stdpp Require Import sorting.
From stdpp Require Import base list strings numbers option.
From Stdlib Require Import ZArith Lia Ascii.
From Stdlib Require Import Floats.SpecFloat.

#[local] Open Scope Z_scope.

(** ** Configuration (lines 16-22) *)

Definition SAMPLE_RATE : Z := 16000.
Definition BLOCKSIZE : Z := 2048.
Definition MAX_LINES : Z := 3.
Definition FADE_TIME : Z := 4.
Definition TEMP_FILE : string := "temp/audio.wav".

(** Python's [len]. *)
Definition len {A} (l : list A) : Z := Z.of_nat (length l).

(** ** Samples: IEEE 754 binary32

    [sounddevice] delivers float32 blocks and [np.zeros(0, dtype=np.float32)]
    and [np.concatenate] keep that type.  A sample is a [spec_float] read with
    24 bits of precision and exponent bound 128. *)

Module F32.

Definition prec : Z := 24.
Definition emax : Z := 128.

Definition valid (x : spec_float) : bool := valid_binary prec emax x.
Definition mul (x y : spec_float) : spec_float := SFmul prec emax x y.
Definition leb (x y : spec_float) : bool := SFleb x y.

(** The integer [n] as a float32 (round to nearest even). *)
Definition of_Z (n : Z) : spec_float := binary_normalize prec emax n 0 false.

Definition one : spec_float := of_Z 1.
Definition minus_one : spec_float := of_Z (-1).

(** The integer part of a finite float, rounded toward zero: for a negative
    exponent the mantissa is shifted right, and the sign is applied last. *)
Definition trunc (x : spec_float) : option Z :=
  match x with
  | S754_zero _ => Some 0
  | S754_finite s m e => Some (cond_Zopp s (Z.shiftl (Z.pos m) e))
  | S754_infinity _ | S754_nan => None
  end.

End F32.

Definition sample : Type := spec_float.

(** Two's complement reduction to 16 bits. *)
Definition wrap_int16 (z : Z) : Z := (z + 32768) mod 65536 - 32768.

(** [.astype(np.int16)] on one float32, as numpy does it on x86-64: the
    float is truncated toward zero to a 32-bit integer, of which the low 16
    bits are kept.  The truncating instruction returns -2^31 for NaN, for the
    infinities and for every value outside the 32-bit range, and the low 16
    bits of that are 0.  [wrap_int16] is the identity on the int16 range. *)
Definition astype_int16 (x : spec_float) : Z :=
  match F32.trunc x with
  | Some z =>
      if (-2147483648 <=? z) && (z <=? 2147483647) then wrap_int16 z else 0
  | None => 0
  end.

(** One element of [(buffer * 32767).astype(np.int16)] (line 135): the
    Python integer 32767 is taken to float32 and the product is a float32
    product. *)
Definition pcm_sample (s : sample) : Z :=
  astype_int16 (F32.mul s (F32.of_Z 32767)).

Definition to_pcm (buffer : list sample) : list Z := map pcm_sample buffer.

(** ** Strings

    A [str] is a sequence of Unicode code points.  It is modelled by the
    [string] of the bytes of its UTF-8 encoding, which is also how the
    literals of this file are stored.  [strip_code_points_spec] shows that
    [strip] on the bytes removes what [str.strip()] removes from the
    characters. *)

(** The UTF-8 encoding of one code point. *)
Definition utf8 (cp : N) : string :=
  let byte (n : N) : ascii := ascii_of_N n in
  (if cp <? 0x80 then
     String (byte cp) ""
   else if cp <? 0x800 then
     String (byte (0xC0 + cp / 0x40))
       (String (byte (0x80 + cp mod 0x40)) "")
   else if cp <? 0x10000 then
     String (byte (0xE0 + cp / 0x1000))
       (String (byte (0x80 + cp / 0x40 mod 0x40))
          (String (byte (0x80 + cp mod 0x40)) ""))
   else
     String (byte (0xF0 + cp / 0x40000))
       (String (byte (0x80 + cp / 0x1000 mod 0x40))
          (String (byte (0x80 + cp / 0x40 mod 0x40))
             (String (byte (0x80 + cp mod 0x40)) ""))))%N.

(** The [str] with the code points [cps]. *)
Definition str_of_code_points (cps : list N) : string :=
  foldr (fun cp s => utf8 cp +:+ s) ""%string cps.

(** The code points for which [str.isspace] holds, which are the ones that
    [str.strip()] removes: TAB to CR, FS to US, the space, NEL, the
    no-break space, U+1680, U+2000 to U+200A, U+2028, U+2029, U+202F,
    U+205F and U+3000. *)
Definition whitespace_code_points : list N :=
  [0x09; 0x0A; 0x0B; 0x0C; 0x0D; 0x1C; 0x1D; 0x1E; 0x1F; 0x20; 0x85; 0xA0;
   0x1680; 0x2000; 0x2001; 0x2002; 0x2003; 0x2004; 0x2005; 0x2006; 0x2007;
   0x2008; 0x2009; 0x200A; 0x2028; 0x2029; 0x202F; 0x205F; 0x3000]%N.

(** Their encodings. *)
Definition whitespace : list string := map utf8 whitespace_code_points.

(** [s] without its prefix [p], when it has that prefix. *)
Fixpoint skip_prefix (p s : string) : option string :=
  match p with
  | EmptyString => Some s
  | String a p' =>
      match s with
      | String b s' => if Ascii.eqb a b then skip_prefix p' s' else None
      | EmptyString => None
      end
  end.

(** [s] without the first of [pats] that it begins with. *)
Fixpoint skip_one (pats : list string) (s : string) : option string :=
  match pats with
  | [] => None
  | p :: pats' =>
      match skip_prefix p s with
      | Some rest => Some rest
      | None => skip_one pats' s
      end
  end.

(** [s] without every leading occurrence of one of [pats].  Each round
    removes one occurrence; [n] bounds the number of rounds. *)
Fixpoint skip_all (pats : list string) (n : nat) (s : string) : string :=
  match n with
  | O => s
  | S n' =>
      match skip_one pats s with
      | Some rest => skip_all pats n' rest
      | None => s
      end
  end.

(** [str.lstrip()]: the leading white space characters are removed.  There
    are no more of them than [s] has bytes. *)
Definition lstrip (s : string) : string :=
  skip_all whitespace (String.length s) s.

(** [str.rstrip()]: the same from the end, on the reversed bytes. *)
Definition rstrip (s : string) : string :=
  String.rev (skip_all (map String.rev whitespace) (String.length s)
                (String.rev s)).

(** [str.strip()] *)
Definition strip (s : string) : string := rstrip (lstrip s).

(** Truth value of a [str]: non-empty. *)
Definition str_truthy (s : string) : bool :=
  match s with EmptyString => false | String _ _ => true end.

(** ** Lines and the line store *)

(** [time.time()] returns a finite double and Python compares doubles by
    value.  Every finite double is an integer multiple of 2^-1074, so a
    reading is represented by that integer. *)
Definition timestamp : Type := Z.

Definition line : Type := string * timestamp.

(** The slice [l[start:]]: a negative [start] counts from the end, and
    the bounds are clipped to the list. *)
Definition slice_from {A} (start : Z) (l : list A) : list A :=
  if start <? 0
  then drop (Z.to_nat (Z.max (len l + start) 0)) l
  else drop (Z.to_nat start) l.

(** Lines 152-154: append, then keep the last [MAX_LINES] entries. *)
Definition lines_append (l : line) (last_lines : list line) : list line :=
  let last_lines := last_lines ++ [l] in
  if len last_lines >? MAX_LINES
  then slice_from (- MAX_LINES) last_lines
  else last_lines.

(** ** JSON values and server-sent events *)

(** The JSON values the program serialises: an array of objects whose
    members are strings and numbers. *)
Inductive json_atom : Type :=
| JString (s : string)
| JNumber (n : timestamp).

Inductive json : Type :=
| JArray (items : list (list (string * json_atom))).

(** [{"text": t, "ts": ts}] *)
Definition line_json (l : line) : list (string * json_atom) :=
  [("text"%string, JString l.1); ("ts"%string, JNumber l.2)].

(** The argument of [json.dumps] on line 116. *)
Definition lines_json (cur : list line) : json := JArray (map line_json cur).

(** One event ["data: " + json.dumps(payload) + "\n\n"]. *)
Inductive sse : Type := Data (payload : json).

(** ** Exceptions, log records and the shared state *)

(** An instance of [Exception], with its [str()]. *)
Inductive exn : Type := Exception (description : string).

(** The sound device's status: the bits of [sd.CallbackFlags], which is
    true exactly when one of them is set. *)
Definition callback_flags : Type := N.

Inductive log_record : Type :=
| LogInfo (msg : string)
| LogWarning (status : callback_flags)
| LogError (msg : string) (e : exn).

(** [indata] has shape (frames, channels): one row per sample instant. *)
Definition ndarray2 : Type := list (list sample).

(** [.reshape(-1)] *)
Definition reshape_flat (a : ndarray2) : list sample := concat a.

Record world : Type := World {
  audio_queue : list ndarray2;   (* queue.Queue(), oldest first *)
  last_lines : list line;        (* the list object bound to last_lines *)
  temp_file : option (list Z);   (* the PCM frames of TEMP_FILE, if readable *)
  log : list log_record          (* what logging has emitted, oldest first *)
}.

Definition set_audio_queue (q : list ndarray2) (w : world) : world :=
  World q (last_lines w) (temp_file w) (log w).
Definition set_last_lines (ls : list line) (w : world) : world :=
  World (audio_queue w) ls (temp_file w) (log w).
Definition set_temp_file (f : option (list Z)) (w : world) : world :=
  World (audio_queue w) (last_lines w) f (log w).
Definition add_log (r : log_record) (w : world) : world :=
  World (audio_queue w) (last_lines w) (temp_file w) (log w ++ [r]).

(** The state at import time, after the module-level log messages, on a
    first run, when TEMP_FILE does not exist yet.  What is proved about the
    wav file below is proved for every [world], so also for a file that an
    earlier run has left. *)
Definition initial_world : world :=
  World [] []  None
    [LogInfo "A1 Whisper LOCAL overlay starting (no OpenAI API, no soundfile, no Twitch bot)...";
     LogInfo "Ladataan Whisper-malli (base)...";
     LogInfo "Whisper-malli ladattu."].

(** ** A state and exception monad over [world] *)

Inductive exc (A : Type) : Type :=
| Return (a : A)
| Raise (e : exn).
Arguments Return {A} a.
Arguments Raise {A} e.

Definition M (A : Type) : Type := world -> exc A * world.

#[export] Instance M_ret : MRet M := fun A a w => (Return a, w).
#[export] Instance M_bind : MBind M := fun A B k m w =>
  match m w with
  | (Return a, w') => k a w'
  | (Raise e, w') => (Raise e, w')
  end.

(** [try: body  except Exception as e: handler e] *)
Definition try_except {A} (body : M A) (handler : exn -> M A) : M A :=
  fun w => match body w with
           | (Return a, w') => (Return a, w')
           | (Raise e, w') => handler e w'
           end.

Definition modify (f : world -> world) : M unit := fun w => (Return tt, f w).
Definition gets {A} (f : world -> A) : M A := fun w => (Return (f w), w).

(** ** The capture callback (lines 49-52) *)

Definition status_truthy (status : callback_flags) : bool :=
  negb (status =? 0)%N.

(** [frames] and [time_info] are not used by the callback and are left out.
    [indata.copy()] is the value of [indata]. *)
Definition audio_callback (indata : ndarray2) (status : callback_flags)
  : M unit :=
  (if status_truthy status
   then modify (add_log (LogWarning status))
   else mret tt) ;;
  modify (fun w => set_audio_queue (audio_queue w ++ [indata]) w).

(** ** The consumer loop (lines 126-159) *)

(** How writing the wav file fails (lines 138-142): [wave.open] raises, and
    the file is as it was; or a later call raises, after [wave.open] has
    truncated the file, and [file] is what the file holds when the [with]
    block has closed it. *)
Inductive write_error : Type :=
| OpenRaised (x : exn)
| WriteRaised (x : exn) (file : option (list Z)).

Definition raised (err : write_error) : exn :=
  match err with
  | OpenRaised x | WriteRaised x _ => x
  end.

(** What the world outside the program does during one iteration of the
    loop: whether and how writing the wav file fails, what Whisper makes of
    the file, and what the clock shows. *)
Record env : Type := Env {
  wave_write : list Z -> option write_error;
  transcribe : option (list Z) -> exc string;
  time_time : timestamp
}.

(** [len(buffer) >= SAMPLE_RATE * 1.5]: the product is the double 24000.0,
    which is 3 * SAMPLE_RATE / 2 exactly, and Python compares an int with a
    double exactly. *)
Definition threshold_reached (buffer : list sample) : bool :=
  3 * SAMPLE_RATE <=? 2 * len buffer.

(** Lines 138-142: on success the file holds [pcm] (mono, 2 bytes a
    sample, SAMPLE_RATE); when [wave.open] raises, the file keeps what it
    held; when a later call raises, it holds what that call left. *)
Definition write_wav (e : env) (pcm : list Z) : M unit :=
  fun w => match wave_write e pcm with
           | None => (Return tt, set_temp_file (Some pcm) w)
           | Some (OpenRaised x) => (Raise x, w)
           | Some (WriteRaised x file) => (Raise x, set_temp_file file w)
           end.

(** Line 144 and the lookup [result["text"]] of line 146. *)
Definition model_transcribe (e : env) : M string :=
  fun w => match transcribe e (temp_file w) with
           | Return r => (Return r, w)
           | Raise x => (Raise x, w)
           end.

(** Lines 148-154. *)
Definition on_text (e : env) (text : string) : M unit :=
  if str_truthy text then
    modify (add_log (LogInfo ("Detected: " +:+ text))) ;;
    let ts := time_time e in
    modify (fun w => set_last_lines (lines_append (text, ts) (last_lines w)) w)
  else mret tt.

(** Lines 138-154, the body of [try]. *)
Definition try_body (e : env) (pcm : list Z) : M unit :=
  write_wav e pcm ;;
  result ← model_transcribe e ;
  let text := strip result in
  on_text e text.

(** Lines 156-157. *)
Definition except_handler (x : exn) : M unit :=
  modify (add_log (LogError "Whisper error: %s" x)).

(** Lines 131-159 after [audio_queue.get()] has returned [indata]: the new
    [buffer], and the buffer handed to the transcription, if any. *)
Definition loop_body (e : env) (buffer : list sample) (indata : ndarray2)
  : M (list sample * option (list sample)) :=
  let block := reshape_flat indata in
  let buffer := buffer ++ block in
  if threshold_reached buffer then
    let pcm := to_pcm buffer in
    try_except (try_body e pcm) except_handler ;;
    mret ([], Some buffer)
  else mret (buffer, None).

(** One iteration of [while True:]; [None] when the queue is empty and
    [get()] blocks. *)
Definition process_audio_iteration (e : env) (buffer : list sample) (w : world)
  : option (exc (list sample * option (list sample)) * world) :=
  match audio_queue w with
  | [] => None
  | indata :: q => Some (loop_body e buffer indata (set_audio_queue q w))
  end.

(** ** The event stream (lines 108-121) *)

(** Lines 113-114: [list(last_lines)] is a new list with the same elements,
    so later changes of [last_lines] do not reach [cur] or [prev]. *)
Definition snapshot : M (list line) := gets last_lines.

(** Line 111. *)
Definition event_stream_start : option (list line) := None.

(** Lines 113-119: what is yielded, and the new [prev].  [cur != prev]
    compares a list with [None] or with a list, element by element. *)
Definition event_stream_iteration (prev : option (list line))
  : M (option sse * option (list line)) :=
  cur ← snapshot ;
  if bool_decide (Some cur ≠ prev)
  then mret (Some (Data (lines_json cur)), Some cur)
  else mret (None, prev).

(** ** The threads together *)

(** The consumer thread: inside its loop with the local [buffer], or ended
    by an exception that left the loop. *)
Inductive consumer : Type :=
| Running (buffer : list sample)
| Died (e : exn).

Record system : Type := System {
  shared : world;
  process_audio : consumer;                  (* the consumer thread *)
  connections : list (option (list line))    (* [prev] of each generator *)
}.

(** The atomic pieces of the threads: the device calls the callback; the
    consumer runs one iteration of its loop; a viewer opens [/stream]; the
    generator of connection [c] runs one iteration of its loop. *)
Inductive action : Type :=
| Capture (indata : ndarray2) (status : callback_flags)
| Consume (e : env)
| Connect
| Poll (c : nat).

(** What a step shows: the block the device delivered, the buffer handed
    to the transcription, the event yielded on a connection. *)
Inductive obs : Type :=
| Captured (indata : ndarray2)
| Segment (seg : list sample)
| Sent (c : nat) (ev : sse).

(** [process_audio] has been started (lines 127-128, 181); nobody is
    connected. *)
Definition initial_system : system :=
  System (add_log (LogInfo "Mic → Whisper loop running...") initial_world)
         (Running []) [].

(** An action that cannot run (empty queue, ended consumer, unknown
    connection) leaves the system as it is. *)
Definition step (a : action) (s : system) : system * list obs :=
  match a with
  | Capture indata status =>
      let '(_, w) := audio_callback indata status (shared s) in
      (System w (process_audio s) (connections s), [Captured indata])
  | Consume e =>
      match process_audio s with
      | Died _ => (s, [])
      | Running buffer =>
          match process_audio_iteration e buffer (shared s) with
          | None => (s, [])
          | Some (Return (buffer', emitted), w) =>
              (System w (Running buffer') (connections s),
               match emitted with Some seg => [Segment seg] | None => [] end)
          | Some (Raise x, w) => (System w (Died x) (connections s), [])
          end
      end
  | Connect =>
      (System (shared s) (process_audio s)
              (connections s ++ [event_stream_start]), [])
  | Poll c =>
      match connections s !! c with
      | None => (s, [])
      | Some prev =>
          match event_stream_iteration prev (shared s) with
          | (Return (yielded, prev'), w) =>
              (System w (process_audio s) (<[c := prev']> (connections s)),
               match yielded with Some ev => [Sent c ev] | None => [] end)
          | (Raise _, w) => (s, [])
          end
      end
  end.

Fixpoint run (acts : list action) (s : system) : system * list obs :=
  match acts with
  | [] => (s, [])
  | a :: acts =>
      let '(s1, o1) := step a s in
      let '(s2, o2) := run acts s1 in
      (s2, o1 ++ o2)
  end.

(** The blocks captured, the segments emitted and the events sent on
    connection [c], each in order of occurrence. *)
Definition captured (tr : list obs) : list ndarray2 :=
  omap (fun o => match o with Captured f => Some f | _ => None end) tr.
Definition segments (tr : list obs) : list (list sample) :=
  omap (fun o => match o with Segment g => Some g | _ => None end) tr.
Definition sent (c : nat) (tr : list obs) : list sse :=
  omap (fun o => match o with
                 | Sent c' ev => if decide (c' = c) then Some ev else None
                 | _ => None
                 end) tr.

(** All samples of a list of blocks or segments, in order. *)
Definition samples_of_blocks (fs : list ndarray2) : list sample :=
  concat (map reshape_flat fs).
Arguments samples_of_blocks : simpl never.

(** * The page and its script (lines 61-106) *)

(** A value of the script: a string, a number, or [undefined]. *)
Definition js_value : Type := option json_atom.

(** One [<div class="line">] of the page: its text, its [data-ts]
    attribute and its opacity.  The element at position [i] (from 0) has
    the id "l" followed by [i + 1], as [loop.index] numbers them. *)
Record element : Type := Element {
  text_content : js_value;
  data_ts : js_value;
  opacity : Z
}.

(** Lines 73-75: one element for each [t, ts] of [lines], with the opacity
    of the style sheet. *)
Definition render_lines (lines : list line) : list element :=
  map (fun l : line =>
         Element (Some (JString l.1)) (Some (JNumber l.2)) 1) lines.

(** Lines 103-106: the elements of the page rendered from [last_lines]. *)
Definition index : M (list element) :=
  gets (fun w => render_lines (last_lines w)).

(** The member [k] of a parsed object; of two members with the same name
    the later one counts. *)
Definition js_get (k : string) (obj : list (string * json_atom)) : js_value :=
  snd <$> list.last (filter (fun p : string * json_atom => p.1 = k) obj).

(** Lines 82-87, for the object [obj] at position [i] of the array: when
    [getElementById("l" + (i + 1))] finds an element, its text, time stamp
    and opacity are set; otherwise nothing happens. *)
Definition update_line (i : nat) (obj : list (string * json_atom))
    (page : list element) : list element :=
  match page !! i with
  | Some _ =>
      <[i := Element (js_get "text" obj) (js_get "ts" obj) 1]> page
  | None => page
  end.

(** [data.forEach] from position [i] on. *)
Fixpoint for_each_from (i : nat) (data : list (list (string * json_atom)))
    (page : list element) : list element :=
  match data with
  | [] => page
  | obj :: data => for_each_from (S i) data (update_line i obj page)
  end.

(** Lines 79-89: [evt.onmessage] on one event. *)
Definition onmessage (ev : sse) (page : list element) : list element :=
  match ev with
  | Data (JArray data) => for_each_from 0 data page
  end.

(** * The vocabulary of the properties, and sample inputs *)

(** What one segment can do to the shared state. *)
Inductive segment_outcome (e : env) (pcm : list Z) (w w' : world) : Prop :=
| Detected (result : string) :
    wave_write e pcm = None ->
    transcribe e (Some pcm) = Return result ->
    str_truthy (strip result) = true ->
    w' = World (audio_queue w)
               (lines_append (strip result, time_time e) (last_lines w))
               (Some pcm)
               (log w ++ [LogInfo ("Detected: " +:+ strip result)]) ->
    segment_outcome e pcm w w'
| Nothing (result : string) :
    wave_write e pcm = None ->
    transcribe e (Some pcm) = Return result ->
    str_truthy (strip result) = false ->
    w' = set_temp_file (Some pcm) w ->
    segment_outcome e pcm w w'
| OpenFailed (x : exn) :
    wave_write e pcm = Some (OpenRaised x) ->
    w' = add_log (LogError "Whisper error: %s" x) w ->
    segment_outcome e pcm w w'
| WriteFailed (x : exn) (file : option (list Z)) :
    wave_write e pcm = Some (WriteRaised x file) ->
    w' = add_log (LogError "Whisper error: %s" x) (set_temp_file file w) ->
    segment_outcome e pcm w w'
| EngineFailed (x : exn) :
    wave_write e pcm = None ->
    transcribe e (Some pcm) = Raise x ->
    w' = add_log (LogError "Whisper error: %s" x) (set_temp_file (Some pcm) w) ->
    segment_outcome e pcm w w'.

(** The [k] most recent entries of [ls], oldest first. *)
Definition most_recent {A} (k : nat) (ls : list A) : list A :=
  drop (length ls - k) ls.
Arguments most_recent : simpl never.

(** The store after a sequence of detected texts. *)
Definition detect_all (ts : list (env * string)) (w : world) : world :=
  foldl (fun w p => (on_text p.1 p.2 w).2) w ts.

(** The line that [on_text] appends for a text and the clock of its [env]. *)
Definition line_of (p : env * string) : line := (p.2, time_time p.1).

(** An engine that answers [text], at clock reading [ts]. *)
Definition stub (text : string) (ts : timestamp) : env :=
  Env (fun _ => None) (fun _ => Return text) ts.

(** The try block raises [x]: writing the file does, or the engine does. *)
Definition segment_raises (e : env) (pcm : list Z) (x : exn) : Prop :=
  (exists err, wave_write e pcm = Some err /\ raised err = x)
  \/ (wave_write e pcm = None /\ transcribe e (Some pcm) = Raise x).

(** A block of [n] silent samples. *)
Definition silence (n : Z) : ndarray2 :=
  replicate (Z.to_nat n) [S754_zero false].

(** [s] consists of white space characters only. *)
Definition whitespace_only (s : string) : Prop :=
  exists cps, Forall (fun cp => cp ∈ whitespace_code_points) cps
              /\ s = str_of_code_points cps.

(** A text of white space only: space, line feed, tab, the ideographic
    space U+3000 and the em space U+2003. *)
Definition blank_text : string :=
  str_of_code_points [0x20; 0x0A; 0x09; 0x3000; 0x2003]%N.

(** The number of iterations of the consumer in a schedule. *)
Fixpoint iterations (acts : list action) : nat :=
  match acts with
  | [] => 0
  | Consume _ :: acts => S (iterations acts)
  | _ :: acts => iterations acts
  end.

(** Twenty-four blocks from the device have been captured and the consumer
    has taken eleven of them. *)
Definition eleven_blocks_taken : list action :=
  replicate 24 (Capture (silence BLOCKSIZE) 0%N)
  ++ replicate 11 (Consume (stub "a" 0)).

(** Eleven more iterations of the consumer, while a viewer connects and
    polls and the device delivers another block. *)
Definition eleven_more_iterations : list action :=
  [Connect; Consume (stub "a" 0); Poll 0; Capture (silence BLOCKSIZE) 2%N]
  ++ replicate 10 (Consume (stub "a" 0)).

(** An engine that raises. *)
Definition failing_engine (msg : string) : env :=
  Env (fun _ => None) (fun _ => Raise (Exception msg)) 0.

(** Four segments of silence, transcribed as "a", "b", "c" and "d". *)
Definition four_segments : list action :=
  [Capture (silence 24000) 0%N; Consume (stub "a" 1);
   Capture (silence 24000) 0%N; Consume (stub "b" 2);
   Capture (silence 24000) 0%N; Consume (stub "c" 3);
   Capture (silence 24000) 0%N; Consume (stub "d" 4)].

(** A segment reaches the threshold and its last block is what took it
    there. *)
Definition segment_ok (tr : list obs) (seg : list sample) : Prop :=
  3 * SAMPLE_RATE <= 2 * len seg
  /\ exists before f,
       f ∈ captured tr
       /\ seg = before ++ reshape_flat f
       /\ 2 * len before < 3 * SAMPLE_RATE.

(** The consumer is running with a buffer below the threshold; segments,
    buffer and queue together are the captured samples. *)
Definition segmenter_inv (s : system) (tr : list obs) : Prop :=
  exists buffer,
    process_audio s = Running buffer
    /\ threshold_reached buffer = false
    /\ concat (segments tr) ++ buffer
         ++ samples_of_blocks (audio_queue (shared s))
       = samples_of_blocks (captured tr)
    /\ Forall (fun f => f ∈ captured tr) (audio_queue (shared s))
    /\ Forall (segment_ok tr) (segments tr).

(** The capture of thirteen blocks of BLOCKSIZE samples: twelve of them
    make a segment, the thirteenth stays in the buffer. *)
Definition thirteen_blocks : list action :=
  replicate 13 (Capture (silence BLOCKSIZE) 0%N)
  ++ replicate 13 (Consume (stub "a" 0)).

(** The store never holds more than MAX_LINES lines. *)
Definition store_inv (s : system) (tr : list obs) : Prop :=
  len (last_lines (shared s)) <= MAX_LINES.

(** The last event sent on connection [c]. *)
Definition last_sent (c : nat) (tr : list obs) : option sse :=
  list.last (sent c tr).

(** The event yielded for the snapshot [cur] (lines 116-118). *)
Definition event_of (cur : list line) : sse := Data (lines_json cur).

(** [prev] of a connection is the snapshot of the last event sent on it,
    and nothing has been sent on a connection that does not exist yet. *)
Definition stream_inv (s : system) (tr : list obs) : Prop :=
  (forall c prev, connections s !! c = Some prev ->
                  last_sent c tr = event_of <$> prev)
  /\ (forall c, (length (connections s) <= c)%nat -> sent c tr = []).

(** One segment is transcribed as "hi", then a viewer connects and polls. *)
Definition one_line_then_poll : list action :=
  [Capture (silence 24000) 0%N; Consume (stub "hi" 5); Connect; Poll 0].

(** The record after [n] right shifts of [M]: the quotient, and whether
    anything non-zero was shifted out. *)
Definition shifted (M n : Z) (r : shr_record) : Prop :=
  shr_m r = M / 2 ^ n
  /\ (shr_r r || shr_s r = false <-> M mod 2 ^ n = 0).

(** * The vocabulary of the further properties *)

(** [s] begins, or ends, with a white space character. *)
Definition starts_with_space (s : string) : Prop :=
  exists cp rest, cp ∈ whitespace_code_points /\ s = utf8 cp +:+ rest.

Definition ends_with_space (s : string) : Prop :=
  exists cp front, cp ∈ whitespace_code_points /\ s = front +:+ utf8 cp.

(** A text as the store holds it: not empty, and no white space around
    it. *)
Definition trimmed (s : string) : Prop :=
  s <> ""%string /\ ~ starts_with_space s /\ ~ ends_with_space s.

(** The strings of [ps] one after the other. *)
Definition join (ps : list string) : string :=
  foldr String.append ""%string ps.

(** [p] and [q] differ at a position that both have. *)
Fixpoint differ (p q : string) : bool :=
  match p, q with
  | String a p', String b q' => if Ascii.eqb a b then differ p' q' else true
  | _, _ => false
  end.

(** None of [pats] is empty, and no two of them can begin the same
    string. *)
Definition prefix_code (pats : list string) : bool :=
  forallb (fun p => negb (String.eqb p "")
                    && forallb (fun q => String.eqb p q || differ p q) pats)
          pats.

(** A code point of Unicode. *)
Definition code_point (cp : N) : Prop := (cp < 0x110000)%N.

(** [str.isspace] on one character. *)
Definition isspace (cp : N) : bool :=
  bool_decide (cp ∈ whitespace_code_points).

Fixpoint drop_while {A} (f : A -> bool) (l : list A) : list A :=
  match l with
  | [] => []
  | x :: l' => if f x then drop_while f l' else l
  end.

(** What [str.strip()] returns, in terms of the characters: the white space
    characters at the beginning and at the end are removed. *)
Definition strip_code_points (cps : list N) : list N :=
  reverse (drop_while isspace (reverse (drop_while isspace cps))).

(** The code point that a sequence of bytes begins with. *)
Definition first_code_point (s : string) : option N :=
  let cont (c : ascii) : N := (N_of_ascii c - 0x80)%N in
  match s with
  | String b1 s1 =>
      let n1 := N_of_ascii b1 in
      if (n1 <? 0x80)%N then Some n1
      else
        match s1 with
        | String b2 s2 =>
            if (n1 <? 0xE0)%N then Some ((n1 - 0xC0) * 0x40 + cont b2)%N
            else
              match s2 with
              | String b3 s3 =>
                  if (n1 <? 0xF0)%N
                  then Some ((n1 - 0xE0) * 0x1000 + cont b2 * 0x40
                             + cont b3)%N
                  else
                    match s3 with
                    | String b4 _ =>
                        Some ((n1 - 0xF0) * 0x40000 + cont b2 * 0x1000
                              + cont b3 * 0x40 + cont b4)%N
                    | EmptyString => None
                    end
              | EmptyString => None
              end
        | EmptyString => None
        end
  | EmptyString => None
  end.

(** The code point that a sequence of bytes ends with, read from the
    reversed bytes: continuation bytes up to a byte that is none. *)
Definition last_code_point (s : string) : option N :=
  let cont (c : ascii) : N := (N_of_ascii c - 0x80)%N in
  match s with
  | String b1 s1 =>
      if (N_of_ascii b1 <? 0x80)%N then Some (N_of_ascii b1)
      else
        match s1 with
        | String b2 s2 =>
            if (0xC0 <=? N_of_ascii b2)%N
            then Some ((N_of_ascii b2 - 0xC0) * 0x40 + cont b1)%N
            else
              match s2 with
              | String b3 s3 =>
                  if (0xC0 <=? N_of_ascii b3)%N
                  then Some ((N_of_ascii b3 - 0xE0) * 0x1000
                             + cont b2 * 0x40 + cont b1)%N
                  else
                    match s3 with
                    | String b4 _ =>
                        Some ((N_of_ascii b4 - 0xF0) * 0x40000
                              + cont b3 * 0x1000 + cont b2 * 0x40
                              + cont b1)%N
                    | EmptyString => None
                    end
              | EmptyString => None
              end
        | EmptyString => None
        end
  | EmptyString => None
  end.

(** What the clock shows in the iterations of the consumer, in order. *)
Definition clock_readings (acts : list action) : list timestamp :=
  omap (fun a => match a with
                 | Consume e => Some (time_time e)
                 | _ => None
                 end) acts.

(** What a step does to the consumer and the queue, and which blocks and
    segments it shows. *)
Inductive pipeline_move (a : action) (s s' : system) (o : list obs) : Prop :=
| MoveCapture (indata : ndarray2) (status : callback_flags) :
    a = Capture indata status ->
    process_audio s' = process_audio s ->
    audio_queue (shared s') = audio_queue (shared s) ++ [indata] ->
    captured o = [indata] -> segments o = [] ->
    pipeline_move a s s' o
| MoveNone :
    process_audio s' = process_audio s ->
    audio_queue (shared s') = audio_queue (shared s) ->
    captured o = [] -> segments o = [] ->
    pipeline_move a s s' o
| MoveBelow (buffer : list sample) (indata : ndarray2) (q : list ndarray2) :
    process_audio s = Running buffer ->
    audio_queue (shared s) = indata :: q ->
    threshold_reached (buffer ++ reshape_flat indata) = false ->
    process_audio s' = Running (buffer ++ reshape_flat indata) ->
    audio_queue (shared s') = q ->
    captured o = [] -> segments o = [] ->
    pipeline_move a s s' o
| MoveSegment (buffer : list sample) (indata : ndarray2) (q : list ndarray2) :
    process_audio s = Running buffer ->
    audio_queue (shared s) = indata :: q ->
    threshold_reached (buffer ++ reshape_flat indata) = true ->
    process_audio s' = Running [] ->
    audio_queue (shared s') = q ->
    captured o = [] -> segments o = [buffer ++ reshape_flat indata] ->
    pipeline_move a s s' o.

(** Lines 166-171: the stream is opened with [blocksize=BLOCKSIZE] and
    [channels=1], so the device delivers blocks of BLOCKSIZE rows of one
    sample. *)
Definition device_block (indata : ndarray2) : Prop :=
  len indata = BLOCKSIZE /\ Forall (fun row => length row = 1%nat) indata.

Definition from_device (a : action) : Prop :=
  match a with
  | Capture indata _ => device_block indata
  | _ => True
  end.

(** The blocks captured so far and not yet taken from the queue are the
    queue; the samples of the blocks taken are the segments and the
    buffer. *)
Definition fifo_inv (s : system) (tr : list obs) : Prop :=
  exists consumed buffer,
    process_audio s = Running buffer
    /\ captured tr = consumed ++ audio_queue (shared s)
    /\ concat (segments tr) ++ buffer = samples_of_blocks consumed.

(** With blocks from the device the buffer holds fewer than twelve whole
    blocks and every segment holds twelve. *)
Definition blocks_inv (s : system) (tr : list obs) : Prop :=
  exists buffer k,
    process_audio s = Running buffer
    /\ len buffer = BLOCKSIZE * k /\ 0 <= k < 12
    /\ Forall device_block (audio_queue (shared s))
    /\ Forall (fun seg => len seg = 12 * BLOCKSIZE) (segments tr)
    /\ len (captured tr)
       = len (audio_queue (shared s)) + 12 * len (segments tr) + k.

(** No two neighbours in [l] are equal. *)
Fixpoint adjacent_distinct (l : list sse) : Prop :=
  match l with
  | ev1 :: ((ev2 :: _) as l') => ev1 <> ev2 /\ adjacent_distinct l'
  | _ => True
  end.

(** The iterations of the generator of connection [c]. *)
Definition is_poll (c : nat) (a : action) : bool :=
  match a with
  | Poll c' => bool_decide (c' = c)
  | _ => false
  end.

(** The actions of the viewers. *)
Definition is_viewer_action (a : action) : bool :=
  match a with
  | Connect | Poll _ => true
  | Capture _ _ | Consume _ => false
  end.

(** A schedule without the actions of the viewers. *)
Definition without_viewers (acts : list action) : list action :=
  filter (fun a => is_viewer_action a = false) acts.

(** * Properties *)

(** ** The monad and the body of the loop *)

Ltac unfold_M :=
  unfold try_body, on_text, except_handler, write_wav, model_transcribe,
    try_except, modify, gets, mbind, M_bind, mret, M_ret in *;
  cbn beta iota in *.

Lemma try_except_outcome e pcm w :
  exists w', try_except (try_body e pcm) except_handler w = (Return tt, w')
             /\ segment_outcome e pcm w w'.
Proof.
  unfold_M.
  destruct (wave_write e pcm) as [[x|x file]|] eqn:Hw; cbn.
  { eexists; split; [reflexivity|]. by eapply OpenFailed. }
  { eexists; split; [reflexivity|]. by eapply WriteFailed. }
  destruct (transcribe e (Some pcm)) as [r|x] eqn:Ht; cbn.
  2:{ eexists; split; [reflexivity|]. by eapply EngineFailed. }
  destruct (str_truthy (strip r)) eqn:Hs; cbn.
  - eexists; split; [reflexivity|]. by eapply Detected.
  - eexists; split; [reflexivity|]. by eapply Nothing.
Qed.

Lemma segment_outcome_queue e pcm w w' :
  segment_outcome e pcm w w' -> audio_queue w' = audio_queue w.
Proof. by destruct 1; subst. Qed.

Lemma loop_body_below e buffer indata w :
  threshold_reached (buffer ++ reshape_flat indata) = false ->
  loop_body e buffer indata w
  = (Return (buffer ++ reshape_flat indata, None), w).
Proof. intros H. unfold loop_body. by rewrite H. Qed.

Lemma loop_body_reached e buffer indata w :
  threshold_reached (buffer ++ reshape_flat indata) = true ->
  exists w',
    loop_body e buffer indata w
    = (Return ([], Some (buffer ++ reshape_flat indata)), w')
    /\ segment_outcome e (to_pcm (buffer ++ reshape_flat indata)) w w'.
Proof.
  intros H. unfold loop_body. rewrite H.
  destruct (try_except_outcome e (to_pcm (buffer ++ reshape_flat indata)) w)
    as (w' & Heq & Hout).
  exists w'. split; [|done].
  unfold mbind, M_bind. by rewrite Heq.
Qed.

(** The loop body always returns: no exception leaves it. *)
Lemma loop_body_returns e buffer indata w :
  exists r w', loop_body e buffer indata w = (Return r, w').
Proof.
  destruct (threshold_reached (buffer ++ reshape_flat indata)) eqn:H.
  - destruct (loop_body_reached e buffer indata w H) as (w' & -> & _); eauto.
  - rewrite loop_body_below; eauto.
Qed.

(** ** The line store *)

Lemma slice_from_most_recent {A} (k : nat) (ls : list A) :
  (0 < k)%nat -> slice_from (- Z.of_nat k) ls = most_recent k ls.
Proof.
  intros Hk. unfold slice_from, most_recent, len.
  destruct (Z.ltb_spec (- Z.of_nat k) 0); [|lia]. f_equal. lia.
Qed.

Lemma most_recent_all {A} (k : nat) (ls : list A) :
  (length ls <= k)%nat -> most_recent k ls = ls.
Proof.
  intros H. unfold most_recent.
  replace (length ls - k)%nat with 0%nat by lia. reflexivity.
Qed.

Lemma length_most_recent {A} (k : nat) (ls : list A) :
  length (most_recent k ls) = (length ls `min` k)%nat.
Proof. unfold most_recent. rewrite length_drop. lia. Qed.

Lemma most_recent_app {A} (k : nat) (xs ys : list A) :
  most_recent k (most_recent k xs ++ ys) = most_recent k (xs ++ ys).
Proof.
  unfold most_recent.
  rewrite <- (drop_app_le xs ys (length xs - k)) by lia.
  rewrite drop_drop. f_equal.
  rewrite length_drop, !length_app. lia.
Qed.

Lemma lines_append_most_recent l ls :
  lines_append l ls = most_recent (Z.to_nat MAX_LINES) (ls ++ [l]).
Proof.
  unfold lines_append.
  change MAX_LINES with (Z.of_nat (Z.to_nat MAX_LINES)) at 1 2.
  rewrite slice_from_most_recent by (unfold MAX_LINES; lia).
  destruct (Z.gtb_spec (len (ls ++ [l])) (Z.of_nat (Z.to_nat MAX_LINES)))
    as [H|H]; [reflexivity|].
  rewrite most_recent_all; [reflexivity|]. unfold len in H. lia.
Qed.

Lemma lines_append_len l ls : len (lines_append l ls) <= MAX_LINES.
Proof.
  rewrite lines_append_most_recent. unfold len.
  rewrite length_most_recent. unfold MAX_LINES. lia.
Qed.

Lemma str_truthy_nonempty s : str_truthy s = true <-> s <> ""%string.
Proof. destruct s; cbn; split; congruence. Qed.

Lemma on_text_truthy e text w :
  str_truthy text = true ->
  on_text e text w
  = (Return tt,
     World (audio_queue w) (lines_append (text, time_time e) (last_lines w))
           (temp_file w) (log w ++ [LogInfo ("Detected: " +:+ text)])).
Proof. intros H. unfold on_text. rewrite H. reflexivity. Qed.

Lemma detect_all_most_recent ts w :
  Forall (fun p : env * string => p.2 <> ""%string) ts ->
  (length (last_lines w) <= Z.to_nat MAX_LINES)%nat ->
  last_lines (detect_all ts w)
  = most_recent (Z.to_nat MAX_LINES) (last_lines w ++ map line_of ts).
Proof.
  intros Hts. revert w.
  induction Hts as [|p ts Hp _ IH]; intros w Hw; cbn.
  - rewrite app_nil_r. by rewrite most_recent_all.
  - apply str_truthy_nonempty in Hp.
    unfold detect_all in IH. rewrite on_text_truthy by done. cbn.
    rewrite IH; cbn.
    + rewrite lines_append_most_recent, most_recent_app.
      by rewrite <- app_assoc.
    + pose proof (lines_append_len (p.2, time_time p.1) (last_lines w)) as H.
      unfold len in H. lia.
Qed.

(** C2: starting from the empty store, after each of a sequence of non-empty
    detected texts has been appended (lines 148-154), the store holds exactly
    the most recent min(number appended, MAX_LINES) lines, in insertion
    order, and never more than MAX_LINES. *)
Theorem C2_line_store_most_recent
    (ts : list (env * string)) (w : world) (k : nat) :
  last_lines w = [] ->
  Forall (fun p : env * string => p.2 <> ""%string) ts ->
  (k <= length ts)%nat ->
  let appended := map line_of (take k ts) in
  let store := last_lines (detect_all (take k ts) w) in
  store = most_recent (k `min` Z.to_nat MAX_LINES) appended
  /\ length store = (k `min` Z.to_nat MAX_LINES)%nat
  /\ len store <= MAX_LINES.
Proof.
  intros Hw Hts Hk appended store.
  assert (Hlen : length appended = k).
  { unfold appended. rewrite length_map, length_take. lia. }
  assert (Hstore : store = most_recent (Z.to_nat MAX_LINES) appended).
  { unfold store. rewrite detect_all_most_recent.
    - by rewrite Hw.
    - by apply Forall_take.
    - rewrite Hw. cbn. lia. }
  assert (Hmin : most_recent (k `min` Z.to_nat MAX_LINES) appended
                 = most_recent (Z.to_nat MAX_LINES) appended).
  { unfold most_recent. f_equal. lia. }
  rewrite Hmin, Hstore. split; [reflexivity|].
  unfold len. rewrite length_most_recent, Hlen. unfold MAX_LINES. lia.
Qed.

Lemma C2_line_store_most_recent_witness :
  let ts := [(stub "a" 1, "a"); (stub "b" 2, "b"); (stub "c" 3, "c");
             (stub "d" 4, "d")]%string in
  last_lines initial_world = []
  /\ Forall (fun p : env * string => p.2 <> ""%string) ts
  /\ (4 <= length ts)%nat
  /\ (last_lines (detect_all (take 4 ts) initial_world)
      = most_recent (4 `min` Z.to_nat MAX_LINES) (map line_of (take 4 ts))
      /\ length (last_lines (detect_all (take 4 ts) initial_world))
         = (4 `min` Z.to_nat MAX_LINES)%nat
      /\ len (last_lines (detect_all (take 4 ts) initial_world)) <= MAX_LINES).
Proof.
  intros ts.
  assert (H1 : last_lines initial_world = []) by reflexivity.
  assert (H2 : Forall (fun p : env * string => p.2 <> ""%string) ts).
  { unfold ts. repeat constructor; discriminate. }
  assert (H3 : (4 <= length ts)%nat) by (cbn; lia).
  split; [exact H1|]. split; [exact H2|]. split; [exact H3|].
  exact (C2_line_store_most_recent ts initial_world 4 H1 H2 H3).
Defined.

(** With MAX_LINES = 3, the texts "a", "b", "c", "d" leave "b", "c", "d". *)
Example line_store_abcd :
  map fst (last_lines (detect_all
            [(stub "a" 1, "a"); (stub "b" 2, "b"); (stub "c" 3, "c");
             (stub "d" 4, "d")]%string initial_world))
  = ["b"; "c"; "d"]%string.
Proof. reflexivity. Qed.

(** The same through the whole pipeline. *)
Example four_segments_abcd :
  last_lines (shared (run four_segments initial_system).1)
  = [("b", 2); ("c", 3); ("d", 4)]%string.
Proof. vm_compute. reflexivity. Qed.

(** ** Strings and white space *)

Lemma string_app_cons c s t : String c s +:+ t = String c (s +:+ t).
Proof. reflexivity. Qed.

Lemma string_app_nil_r s : s +:+ "" = s.
Proof.
  induction s as [|c s IH]; [done|]. by rewrite string_app_cons, IH.
Qed.

Lemma string_app_assoc s1 s2 s3 : (s1 +:+ s2) +:+ s3 = s1 +:+ s2 +:+ s3.
Proof.
  induction s1 as [|c s1 IH]; [done|]. by rewrite !string_app_cons, IH.
Qed.

Lemma rev_app_spec s1 s2 : String.rev_app s1 s2 = String.rev s1 +:+ s2.
Proof.
  unfold String.rev. revert s2.
  induction s1 as [|c s1 IH]; intros s2; cbn; [done|].
  rewrite (IH (String c s2)), (IH (String c "")).
  by rewrite string_app_assoc.
Qed.

Lemma string_rev_cons c s : String.rev (String c s) = String.rev s +:+ String c "".
Proof. unfold String.rev at 1. cbn. apply rev_app_spec. Qed.

Lemma string_rev_app s1 s2 :
  String.rev (s1 +:+ s2) = String.rev s2 +:+ String.rev s1.
Proof.
  induction s1 as [|c s1 IH].
  - by rewrite string_app_nil_r.
  - by rewrite string_app_cons, !string_rev_cons, IH, string_app_assoc.
Qed.

Lemma string_rev_involutive s : String.rev (String.rev s) = s.
Proof.
  induction s as [|c s IH]; [done|].
  by rewrite string_rev_cons, string_rev_app, IH.
Qed.

Lemma string_length_app s t :
  String.length (s +:+ t) = (String.length s + String.length t)%nat.
Proof.
  induction s as [|c s IH]; [done|]. rewrite string_app_cons. cbn. by rewrite IH.
Qed.

Lemma string_length_rev s : String.length (String.rev s) = String.length s.
Proof.
  induction s as [|c s IH]; [done|].
  rewrite string_rev_cons, string_length_app, IH. cbn. lia.
Qed.

Lemma string_app_inv_head p s t : p +:+ s = p +:+ t -> s = t.
Proof.
  induction p as [|c p IH]; [done|]. rewrite !string_app_cons.
  intros [= H]. by apply IH.
Qed.

Lemma skip_prefix_spec p s r : skip_prefix p s = Some r <-> s = p +:+ r.
Proof.
  revert s. induction p as [|a p IH]; intros s; cbn [skip_prefix].
  - split; [by intros [= ->]|by intros ->].
  - rewrite string_app_cons. destruct s as [|b s]; [done|].
    destruct (Ascii.eqb_spec a b) as [->|Hne].
    + rewrite IH. split; [by intros ->|by intros [= ->]].
    + split; [done|]. by intros [= -> _].
Qed.

Lemma differ_app p q r1 r2 : differ p q = true -> p +:+ r1 <> q +:+ r2.
Proof.
  revert q. induction p as [|a p IH]; intros [|b q]; try done.
  cbn [differ]. rewrite !string_app_cons.
  destruct (Ascii.eqb_spec a b) as [->|Hne]; intros Hd [= H]; [|done].
  by apply (IH q).
Qed.

Lemma prefix_code_nonempty pats p :
  prefix_code pats = true -> p ∈ pats -> p <> ""%string.
Proof.
  unfold prefix_code. rewrite forallb_forall. intros H Hp.
  apply list_elem_of_In in Hp. specialize (H p Hp).
  apply andb_prop in H as [H _]. by destruct p.
Qed.

Lemma prefix_code_unique pats p q r1 r2 :
  prefix_code pats = true -> p ∈ pats -> q ∈ pats ->
  p +:+ r1 = q +:+ r2 -> p = q.
Proof.
  unfold prefix_code. rewrite forallb_forall. intros H Hp Hq Heq.
  apply list_elem_of_In in Hp, Hq. specialize (H p Hp).
  apply andb_prop in H as [_ H]. rewrite forallb_forall in H.
  specialize (H q Hq). apply orb_prop in H as [H|H].
  - by apply String.eqb_eq.
  - by apply (differ_app p q r1 r2) in H.
Qed.

Lemma skip_one_Some pats s r :
  skip_one pats s = Some r -> exists p, p ∈ pats /\ s = p +:+ r.
Proof.
  induction pats as [|p pats IH]; [done|]. cbn [skip_one].
  destruct (skip_prefix p s) as [r'|] eqn:Hp.
  - intros [= ->]. exists p. split; [by left|]. by apply skip_prefix_spec.
  - intros H. destruct (IH H) as (q & Hq & ->). exists q. split; [by right|done].
Qed.

Lemma skip_one_None pats s p r :
  skip_one pats s = None -> p ∈ pats -> s <> p +:+ r.
Proof.
  induction pats as [|q pats IH]; [by intros _ H; inversion H|].
  cbn [skip_one]. destruct (skip_prefix q s) as [r'|] eqn:Hq; [done|].
  intros H Hp Hs. apply elem_of_cons in Hp as [->|Hp].
  - apply skip_prefix_spec in Hs. congruence.
  - by apply IH.
Qed.

Lemma skip_one_app pats p r :
  prefix_code pats = true -> p ∈ pats -> skip_one pats (p +:+ r) = Some r.
Proof.
  intros Hc Hp. destruct (skip_one pats (p +:+ r)) as [r'|] eqn:H.
  - destruct (skip_one_Some _ _ _ H) as (q & Hq & Heq).
    pose proof (prefix_code_unique _ _ _ _ _ Hc Hp Hq Heq) as <-.
    f_equal. symmetry. by apply (string_app_inv_head p).
  - by apply (skip_one_None _ _ p r) in H.
Qed.

Lemma skip_one_empty pats :
  prefix_code pats = true -> skip_one pats "" = None.
Proof.
  intros Hc. destruct (skip_one pats "") as [r|] eqn:H; [|done].
  destruct (skip_one_Some _ _ _ H) as (p & Hp & Heq).
  apply (prefix_code_nonempty _ _ Hc) in Hp. by destruct p.
Qed.

(** [skip_all] removes a sequence of occurrences and what is left begins
    with none, when the number of rounds is at least the length. *)
Lemma skip_all_split pats n s :
  prefix_code pats = true -> (String.length s <= n)%nat ->
  exists ps,
    Forall (fun p => p ∈ pats) ps
    /\ s = join ps +:+ skip_all pats n s
    /\ skip_one pats (skip_all pats n s) = None.
Proof.
  intros Hc. revert s. induction n as [|n IH]; intros s Hn.
  - destruct s; [|cbn in Hn; lia]. exists []. cbn.
    split; [constructor|]. split; [done|]. by apply skip_one_empty.
  - cbn [skip_all]. destruct (skip_one pats s) as [r|] eqn:H.
    + destruct (skip_one_Some _ _ _ H) as (p & Hp & ->).
      pose proof (prefix_code_nonempty _ _ Hc Hp) as Hne.
      rewrite string_length_app in Hn.
      destruct (IH r) as (ps & Hps & Hr & Hnone).
      { destruct p; [done|]. cbn in Hn. lia. }
      exists (p :: ps). split; [by constructor|]. split; [|done].
      cbn [join foldr]. fold (join ps). by rewrite string_app_assoc, <- Hr.
    + exists []. split; [constructor|]. by split.
Qed.

Lemma skip_all_unique pats n ps t :
  prefix_code pats = true ->
  Forall (fun p => p ∈ pats) ps -> skip_one pats t = None ->
  (String.length (join ps +:+ t) <= n)%nat ->
  skip_all pats n (join ps +:+ t) = t.
Proof.
  intros Hc Hps Ht. revert n.
  induction Hps as [|p ps Hp _ IH]; intros n Hn.
  - change (join [] +:+ t) with t.
    destruct n as [|n]; [done|]. cbn [skip_all]. by rewrite Ht.
  - cbn [join foldr] in *. fold (join ps) in *.
    rewrite string_app_assoc in *.
    pose proof (prefix_code_nonempty _ _ Hc Hp) as Hne.
    rewrite string_length_app in Hn.
    destruct n as [|n]; [destruct p; [done|cbn in Hn; lia]|].
    cbn [skip_all]. rewrite skip_one_app by done. apply IH.
    destruct p; [done|]. cbn in Hn. lia.
Qed.

Lemma join_app ps qs : join (ps ++ qs) = join ps +:+ join qs.
Proof.
  induction ps as [|p ps IH]; [done|]. cbn [join foldr app] in *.
  fold (join (ps ++ qs)) (join ps). by rewrite IH, string_app_assoc.
Qed.

Lemma string_rev_join ps :
  String.rev (join ps) = join (map String.rev (reverse ps)).
Proof.
  induction ps as [|p ps IH]; [done|].
  cbn [join foldr]. fold (join ps).
  rewrite string_rev_app, IH, reverse_cons, map_app, join_app. cbn.
  by rewrite string_app_nil_r.
Qed.

Lemma whitespace_code : prefix_code whitespace = true.
Proof. vm_compute. reflexivity. Qed.

Lemma whitespace_rev_code : prefix_code (map String.rev whitespace) = true.
Proof. vm_compute. reflexivity. Qed.

Lemma str_of_code_points_join cps :
  str_of_code_points cps = join (map utf8 cps).
Proof.
  induction cps as [|cp cps IH]; [done|].
  cbn [str_of_code_points foldr map join] in *.
  fold (str_of_code_points cps) (join (map utf8 cps)). by rewrite IH.
Qed.

Lemma elem_of_map {A B} (f : A -> B) l y :
  y ∈ map f l <-> exists x, y = f x /\ x ∈ l.
Proof.
  rewrite list_elem_of_In, in_map_iff. split.
  - intros (x & <- & Hx). exists x. by rewrite list_elem_of_In.
  - intros (x & -> & Hx). exists x. by rewrite <- list_elem_of_In.
Qed.

Lemma whitespace_only_join s :
  whitespace_only s
  <-> exists ps, Forall (fun p => p ∈ whitespace) ps /\ s = join ps.
Proof.
  split.
  - intros (cps & Hcps & ->). exists (map utf8 cps).
    split; [|apply str_of_code_points_join].
    induction Hcps as [|cp cps Hcp _ IH]; constructor; [|done].
    apply elem_of_map. by exists cp.
  - intros (ps & Hps & ->).
    induction Hps as [|p ps Hp _ (cps & Hcps & IH)]; [by exists []|].
    apply elem_of_map in Hp as (cp & -> & Hcp).
    exists (cp :: cps). split; [by constructor|].
    cbn [join foldr str_of_code_points]. fold (join ps).
    by rewrite IH.
Qed.

Lemma whitespace_only_app s t :
  whitespace_only s -> whitespace_only t -> whitespace_only (s +:+ t).
Proof.
  rewrite !whitespace_only_join.
  intros (ps & Hps & ->) (qs & Hqs & ->). exists (ps ++ qs).
  split; [by apply Forall_app|]. by rewrite join_app.
Qed.

Lemma Forall_map_rev (pats : list string) ps :
  Forall (fun p => p ∈ pats) ps ->
  Forall (fun q => q ∈ map String.rev pats) (map String.rev (reverse ps)).
Proof.
  intros Hps. apply list.Forall_forall. intros q Hq.
  apply elem_of_map in Hq as (p & -> & Hp). rewrite elem_of_reverse in Hp.
  apply elem_of_map. exists p. split; [done|].
  exact (proj1 (list.Forall_forall _ _) Hps p Hp).
Qed.

Lemma map_rev_rev (pats : list string) :
  map String.rev (map String.rev pats) = pats.
Proof.
  induction pats as [|p pats IH]; [done|].
  cbn [map]. by rewrite string_rev_involutive, IH.
Qed.

Lemma whitespace_only_rev s :
  whitespace_only s
  <-> exists qs, Forall (fun q => q ∈ map String.rev whitespace) qs
                 /\ String.rev s = join qs.
Proof.
  rewrite whitespace_only_join. split.
  - intros (ps & Hps & ->). exists (map String.rev (reverse ps)).
    split; [by apply Forall_map_rev|apply string_rev_join].
  - intros (qs & Hqs & Hrev). exists (map String.rev (reverse qs)).
    split.
    + apply Forall_map_rev in Hqs. by rewrite map_rev_rev in Hqs.
    + rewrite <- string_rev_join, <- Hrev. by rewrite string_rev_involutive.
Qed.

(** [lstrip] removes white space characters from the front, and what is
    left begins with none. *)
Lemma lstrip_split s :
  exists w, s = w +:+ lstrip s /\ whitespace_only w
            /\ ~ starts_with_space (lstrip s).
Proof.
  destruct (skip_all_split whitespace (String.length s) s whitespace_code)
    as (ps & Hps & Hs & Hnone); [done|].
  exists (join ps). split; [done|]. split.
  - apply whitespace_only_join. by exists ps.
  - intros (cp & rest & Hcp & Heq).
    apply (skip_one_None _ _ (utf8 cp) rest) in Hnone; [done|].
    apply elem_of_map. by exists cp.
Qed.

Lemma rstrip_split s :
  exists w, s = rstrip s +:+ w /\ whitespace_only w
            /\ ~ ends_with_space (rstrip s).
Proof.
  destruct (skip_all_split (map String.rev whitespace) (String.length s)
              (String.rev s) whitespace_rev_code)
    as (qs & Hqs & Hs & Hnone); [by rewrite string_length_rev|].
  fold (rstrip s) in *. unfold rstrip.
  set (u := skip_all _ _ _) in *.
  exists (String.rev (join qs)). split; [|split].
  - rewrite <- string_rev_app, <- Hs. by rewrite string_rev_involutive.
  - apply whitespace_only_rev. exists qs.
    by rewrite string_rev_involutive.
  - intros (cp & front & Hcp & Heq).
    apply (f_equal String.rev) in Heq.
    rewrite string_rev_involutive, string_rev_app in Heq.
    apply (skip_one_None _ _ (String.rev (utf8 cp)) (String.rev front))
      in Hnone; [done|].
    apply elem_of_map. exists (utf8 cp). split; [done|].
    apply elem_of_map. by exists cp.
Qed.

Lemma lstrip_whitespace_only s : whitespace_only s -> lstrip s = ""%string.
Proof.
  intros Hs. apply whitespace_only_join in Hs as (ps & Hps & ->).
  unfold lstrip. rewrite <- (string_app_nil_r (join ps)).
  apply skip_all_unique; [apply whitespace_code|done| |done].
  apply skip_one_empty, whitespace_code.
Qed.

(** The stripped text is empty exactly when the text is white space
    only. *)
Lemma strip_empty s : strip s = ""%string <-> whitespace_only s.
Proof.
  split.
  - intros H. destruct (lstrip_split s) as (w & Hw & Hsp & _).
    destruct (rstrip_split (lstrip s)) as (w' & Hw' & Hsp' & _).
    fold (strip s) in Hw'. rewrite H in Hw'. cbn in Hw'.
    rewrite Hw, Hw'. by apply whitespace_only_app.
  - intros H. unfold strip. by rewrite lstrip_whitespace_only.
Qed.

Lemma strip_trimmed s : ~ whitespace_only s -> trimmed (strip s).
Proof.
  intros Hs. split; [by rewrite strip_empty|]. split.
  - destruct (lstrip_split s) as (_ & _ & _ & Hl).
    destruct (rstrip_split (lstrip s)) as (w & Hw & _).
    fold (strip s) in Hw. intros (cp & rest & Hcp & Heq).
    apply Hl. exists cp, (rest +:+ w). split; [done|].
    by rewrite Hw, Heq, string_app_assoc.
  - destruct (rstrip_split (lstrip s)) as (_ & _ & _ & Hr). exact Hr.
Qed.

(** ** The bytes and the characters *)

Ltac nlia := zify; Z.to_euclidean_division_equations; lia.

Ltac decide_bytes :=
  rewrite ?N_ascii_embedding by nlia;
  repeat match goal with
         | |- context [(?a <? ?b)%N] =>
             destruct (N.ltb_spec a b); [try (exfalso; nlia)|try (exfalso; nlia)]
         | |- context [(?a <=? ?b)%N] =>
             destruct (N.leb_spec a b); [try (exfalso; nlia)|try (exfalso; nlia)]
         end.

(** A str begins with its first character and with no other. *)
Lemma first_code_point_utf8 cp rest :
  code_point cp -> first_code_point (utf8 cp +:+ rest) = Some cp.
Proof.
  unfold code_point, utf8. intros Hcp.
  destruct (N.ltb_spec cp 0x80); [|destruct (N.ltb_spec cp 0x800);
    [|destruct (N.ltb_spec cp 0x10000)]];
    rewrite ?string_app_cons; unfold first_code_point; cbv beta iota zeta;
    decide_bytes; f_equal; nlia.
Qed.

Lemma string_rev_1 a : String.rev (String a "") = String a "".
Proof. reflexivity. Qed.
Lemma string_rev_2 a b :
  String.rev (String a (String b "")) = String b (String a "").
Proof. reflexivity. Qed.
Lemma string_rev_3 a b c :
  String.rev (String a (String b (String c "")))
  = String c (String b (String a "")).
Proof. reflexivity. Qed.
Lemma string_rev_4 a b c d :
  String.rev (String a (String b (String c (String d ""))))
  = String d (String c (String b (String a ""))).
Proof. reflexivity. Qed.

(** A str ends with its last character and with no other. *)
Lemma last_code_point_utf8 cp rest :
  code_point cp -> last_code_point (String.rev (utf8 cp) +:+ rest) = Some cp.
Proof.
  unfold code_point, utf8. intros Hcp.
  destruct (N.ltb_spec cp 0x80); [|destruct (N.ltb_spec cp 0x800);
    [|destruct (N.ltb_spec cp 0x10000)]];
    rewrite ?string_rev_1, ?string_rev_2, ?string_rev_3, ?string_rev_4,
      ?string_app_cons;
    unfold last_code_point; cbv beta iota zeta;
    decide_bytes; f_equal; nlia.
Qed.

Lemma str_of_code_points_app cps1 cps2 :
  str_of_code_points (cps1 ++ cps2)
  = str_of_code_points cps1 +:+ str_of_code_points cps2.
Proof. by rewrite !str_of_code_points_join, map_app, join_app. Qed.

Lemma map_reverse {A B} (f : A -> B) l : map f (reverse l) = reverse (map f l).
Proof.
  induction l as [|x l IH]; [done|].
  cbn [map]. by rewrite !reverse_cons, map_app, IH.
Qed.

Lemma str_of_code_points_rev cps :
  String.rev (str_of_code_points cps)
  = join (map (fun cp => String.rev (utf8 cp)) (reverse cps)).
Proof.
  rewrite str_of_code_points_join, string_rev_join.
  by rewrite <- map_reverse, map_map.
Qed.

Lemma join_rev_utf8 cps :
  String.rev (join (map (fun cp => String.rev (utf8 cp)) cps))
  = str_of_code_points (reverse cps).
Proof.
  rewrite <- (reverse_involutive cps) at 1.
  by rewrite <- str_of_code_points_rev, string_rev_involutive.
Qed.

Lemma isspace_true cp : isspace cp = true <-> cp ∈ whitespace_code_points.
Proof. unfold isspace. by rewrite bool_decide_eq_true. Qed.

Lemma drop_while_split {A} (f : A -> bool) l :
  exists pre,
    l = pre ++ drop_while f l
    /\ Forall (fun x => f x = true) pre
    /\ match drop_while f l with
       | [] => True
       | x :: _ => f x = false
       end.
Proof.
  induction l as [|x l (pre & Hl & Hpre & Hd)]; [by exists []|].
  cbn [drop_while]. destruct (f x) eqn:Hx.
  - exists (x :: pre). split; [by rewrite Hl at 1|]. split; [by constructor|done].
  - by exists [].
Qed.

Lemma Forall_drop_while {A} (P : A -> Prop) (f : A -> bool) l :
  Forall P l -> Forall P (drop_while f l).
Proof.
  induction 1 as [|x l Hx Hl IH]; [constructor|].
  cbn [drop_while]. destruct (f x); [done|by constructor].
Qed.

Lemma drop_while_all {A} (f : A -> bool) l :
  drop_while f l = [] <-> Forall (fun x => f x = true) l.
Proof.
  induction l as [|x l IH]; [by split; [constructor|]|].
  cbn [drop_while]. destruct (f x) eqn:Hx.
  - rewrite IH. split; [by constructor|by inversion 1].
  - split; [done|]. inversion 1. congruence.
Qed.

Lemma whitespace_is_code_point cp :
  cp ∈ whitespace_code_points -> code_point cp.
Proof.
  apply (proj1 (list.Forall_forall code_point whitespace_code_points)).
  unfold whitespace_code_points, code_point. repeat constructor.
Qed.

(** [lstrip] removes the white space characters at the beginning. *)
Lemma lstrip_code_points cps :
  Forall code_point cps ->
  lstrip (str_of_code_points cps)
  = str_of_code_points (drop_while isspace cps).
Proof.
  intros Hcps.
  destruct (drop_while_split isspace cps) as (pre & Hsplit & Hpre & Hd).
  pose proof (Forall_drop_while _ isspace _ Hcps) as Hrest.
  assert (Hs : str_of_code_points cps
               = join (map utf8 pre)
                 +:+ str_of_code_points (drop_while isspace cps)).
  { rewrite Hsplit at 1.
    by rewrite str_of_code_points_app, str_of_code_points_join. }
  unfold lstrip. rewrite Hs.
  apply skip_all_unique; [apply whitespace_code| | |done].
  - clear -Hpre. induction Hpre as [|cp pre Hcp _ IH]; constructor; [|done].
    apply elem_of_map. exists cp. split; [done|]. by apply isspace_true.
  - destruct (drop_while isspace cps) as [|cp rest];
      [apply skip_one_empty, whitespace_code|].
    destruct (skip_one whitespace _) as [r|] eqn:Hone; [|done].
    apply skip_one_Some in Hone as (p & Hp & Heq).
    apply elem_of_map in Hp as (sp & -> & Hsp).
    apply Forall_cons_1 in Hrest as [Hcp _].
    apply (f_equal first_code_point) in Heq. cbn [str_of_code_points foldr] in Heq.
    rewrite !first_code_point_utf8 in Heq;
      [|by apply whitespace_is_code_point|done].
    injection Heq as ->. apply isspace_true in Hsp. congruence.
Qed.

(** [rstrip] removes the white space characters at the end. *)
Lemma rstrip_code_points cps :
  Forall code_point cps ->
  rstrip (str_of_code_points cps)
  = str_of_code_points (reverse (drop_while isspace (reverse cps))).
Proof.
  intros Hcps.
  destruct (drop_while_split isspace (reverse cps))
    as (pre & Hsplit & Hpre & Hd).
  assert (Hrest : Forall code_point (drop_while isspace (reverse cps))).
  { apply Forall_drop_while. by apply Forall_reverse. }
  set (rev_utf8 := fun cp => String.rev (utf8 cp)) in *.
  assert (Hs : String.rev (str_of_code_points cps)
               = join (map rev_utf8 pre)
                 +:+ join (map rev_utf8 (drop_while isspace (reverse cps)))).
  { rewrite str_of_code_points_rev. fold rev_utf8. rewrite Hsplit at 1.
    by rewrite map_app, join_app. }
  unfold rstrip. rewrite Hs.
  rewrite skip_all_unique; [apply join_rev_utf8|apply whitespace_rev_code| | |].
  - clear -Hpre. induction Hpre as [|cp pre Hcp _ IH]; constructor; [|done].
    apply elem_of_map. exists (utf8 cp). split; [done|].
    apply elem_of_map. exists cp. split; [done|]. by apply isspace_true.
  - destruct (drop_while isspace (reverse cps)) as [|cp rest];
      [apply skip_one_empty, whitespace_rev_code|].
    destruct (skip_one _ _) as [r|] eqn:Hone; [|done].
    apply skip_one_Some in Hone as (p & Hp & Heq).
    apply elem_of_map in Hp as (p' & -> & Hp).
    apply elem_of_map in Hp as (sp & -> & Hsp).
    apply Forall_cons_1 in Hrest as [Hcp _].
    apply (f_equal last_code_point) in Heq. cbn [map join foldr] in Heq.
    unfold rev_utf8 in Heq at 1.
    rewrite !last_code_point_utf8 in Heq;
      [|by apply whitespace_is_code_point|done].
    injection Heq as ->. apply isspace_true in Hsp. congruence.
  - rewrite <- Hs. by rewrite string_length_rev.
Qed.

(** [strip] on the bytes is [str.strip()] on the characters. *)
Lemma strip_code_points_spec cps :
  Forall code_point cps ->
  strip (str_of_code_points cps)
  = str_of_code_points (strip_code_points cps).
Proof.
  intros Hcps. unfold strip, strip_code_points.
  rewrite lstrip_code_points by done.
  apply rstrip_code_points. by apply Forall_drop_while.
Qed.

Lemma utf8_nonempty cp : utf8 cp <> ""%string.
Proof. unfold utf8. by repeat destruct (_ <? _)%N. Qed.

Lemma str_of_code_points_empty cps :
  str_of_code_points cps = ""%string -> cps = [].
Proof.
  destruct cps as [|cp cps]; [done|]. cbn [str_of_code_points foldr].
  pose proof (utf8_nonempty cp). by destruct (utf8 cp).
Qed.

Lemma strip_code_points_empty cps :
  strip_code_points cps = [] <-> forallb isspace cps = true.
Proof.
  unfold strip_code_points. rewrite forallb_forall.
  rewrite <- (reverse_involutive []), (inj_iff reverse).
  rewrite reverse_nil, drop_while_all, Forall_reverse.
  destruct (drop_while_split isspace cps) as (pre & Hsplit & Hpre & Hd).
  rewrite Forall_forall in Hpre. split.
  - intros Hall x Hx. rewrite Hsplit in Hx.
    destruct (drop_while isspace cps) as [|y rest].
    + rewrite app_nil_r in Hx. by apply Hpre.
    + apply Forall_cons_1 in Hall as [Hy _]. congruence.
  - intros Hall. apply Forall_forall. intros x Hx. apply Hall.
    rewrite Hsplit. apply in_or_app. by right.
Qed.

(** A text is white space only exactly when each of its characters is. *)
Lemma whitespace_only_code_points cps :
  Forall code_point cps ->
  whitespace_only (str_of_code_points cps) <-> forallb isspace cps = true.
Proof.
  intros Hcps.
  rewrite <- strip_empty, strip_code_points_spec, <- strip_code_points_empty
    by done.
  split; [apply str_of_code_points_empty|by intros ->].
Qed.

(** A text is trimmed exactly when it is not empty and [str.strip()] has
    nothing to remove from its characters. *)
Lemma trimmed_code_points cps :
  Forall code_point cps ->
  trimmed (str_of_code_points cps)
  <-> cps <> [] /\ strip_code_points cps = cps.
Proof.
  intros Hcps. split.
  - intros (Hne & Hstart & Hend).
    assert (Hnil : cps <> []) by (by intros ->). split; [done|].
    unfold strip_code_points.
    assert (Hl : drop_while isspace cps = cps).
    { destruct cps as [|cp cps']; [done|]. cbn [drop_while].
      destruct (isspace cp) eqn:Hcp; [|done].
      destruct Hstart. exists cp, (str_of_code_points cps').
      split; [by apply isspace_true|done]. }
    rewrite Hl. rewrite <- (reverse_involutive cps) at 2. f_equal.
    destruct (reverse cps) as [|cp rest] eqn:Hrev; [done|].
    cbn [drop_while]. destruct (isspace cp) eqn:Hcp; [|done].
    destruct Hend. exists cp, (str_of_code_points (reverse rest)).
    split; [by apply isspace_true|].
    rewrite <- (reverse_involutive cps), Hrev, reverse_cons.
    rewrite str_of_code_points_app. cbn [str_of_code_points foldr].
    by rewrite string_app_nil_r.
  - intros [Hnil Hstrip].
    rewrite <- Hstrip, <- strip_code_points_spec by done.
    apply strip_trimmed. rewrite whitespace_only_code_points by done.
    rewrite <- strip_code_points_empty. congruence.
Qed.

Lemma str_truthy_strip s :
  str_truthy (strip s) = false <-> whitespace_only s.
Proof.
  rewrite <- strip_empty. by destruct (strip s).
Qed.

Lemma blank_text_whitespace_only : whitespace_only blank_text.
Proof.
  eexists. split; [|reflexivity].
  repeat (constructor; [apply list_elem_of_In; cbn; tauto|]). constructor.
Qed.

(** The arrow of the log message of line 127 is stored as its encoding, and
    white space is removed whatever its encoding. *)
Example strip_values :
  utf8 0x2192 = "→"%string
  /\ strip (utf8 0x2003 +:+ " hi → x" +:+ utf8 0x3000 +:+ utf8 0x85)
     = "hi → x"%string
  /\ strip blank_text = ""%string
  /\ strip (String (ascii_of_N 0x85) "hi") = String (ascii_of_N 0x85) "hi".
Proof. vm_compute. repeat split; reflexivity. Qed.

(** ** Schedules in parts *)

Lemma run_app acts1 acts2 s :
  run (acts1 ++ acts2) s
  = (let '(s1, o1) := run acts1 s in
     let '(s2, o2) := run acts2 s1 in
     (s2, o1 ++ o2)).
Proof.
  revert s. induction acts1 as [|a acts1 IH]; intros s; cbn [run app].
  - by destruct (run acts2 s).
  - destruct (step a s) as [s1 o1]. rewrite IH.
    destruct (run acts1 s1) as [s2 o2]. destruct (run acts2 s2) as [s3 o3].
    by rewrite app_assoc.
Qed.

Lemma run_app_state acts1 acts2 s :
  (run (acts1 ++ acts2) s).1 = (run acts2 (run acts1 s).1).1.
Proof.
  rewrite run_app. destruct (run acts1 s) as [s1 o1]. cbn.
  by destruct (run acts2 s1).
Qed.

Lemma samples_of_blocks_app fs gs :
  samples_of_blocks (fs ++ gs) = samples_of_blocks fs ++ samples_of_blocks gs.
Proof. unfold samples_of_blocks. by rewrite map_app, concat_app. Qed.

Lemma samples_of_blocks_cons f fs :
  samples_of_blocks (f :: fs) = reshape_flat f ++ samples_of_blocks fs.
Proof. reflexivity. Qed.

Lemma samples_of_blocks_snoc fs f :
  samples_of_blocks (fs ++ [f]) = samples_of_blocks fs ++ reshape_flat f.
Proof.
  rewrite samples_of_blocks_app, samples_of_blocks_cons.
  unfold samples_of_blocks at 2. cbn. by rewrite app_nil_r.
Qed.

Lemma threshold_reached_true buffer :
  threshold_reached buffer = true <-> 3 * SAMPLE_RATE <= 2 * len buffer.
Proof. unfold threshold_reached. apply Z.leb_le. Qed.

Lemma threshold_reached_false buffer :
  threshold_reached buffer = false <-> 2 * len buffer < 3 * SAMPLE_RATE.
Proof. unfold threshold_reached. apply Z.leb_gt. Qed.

Lemma len_app {A} (xs ys : list A) : len (xs ++ ys) = len xs + len ys.
Proof. unfold len. rewrite length_app. lia. Qed.

Lemma threshold_reached_prefix buffer more :
  threshold_reached (buffer ++ more) = false ->
  threshold_reached buffer = false.
Proof.
  rewrite !threshold_reached_false, len_app. unfold len. lia.
Qed.

(** ** One step of the consumer *)

Lemma step_consume_below s buffer indata q e :
  process_audio s = Running buffer ->
  audio_queue (shared s) = indata :: q ->
  threshold_reached (buffer ++ reshape_flat indata) = false ->
  step (Consume e) s
  = (System (set_audio_queue q (shared s))
            (Running (buffer ++ reshape_flat indata)) (connections s), []).
Proof.
  intros Hp Hq Ht. cbn. unfold process_audio_iteration.
  rewrite Hp, Hq. by rewrite loop_body_below.
Qed.

Lemma step_consume_reached s buffer indata q e :
  process_audio s = Running buffer ->
  audio_queue (shared s) = indata :: q ->
  threshold_reached (buffer ++ reshape_flat indata) = true ->
  exists w',
    step (Consume e) s
    = (System w' (Running []) (connections s),
       [Segment (buffer ++ reshape_flat indata)])
    /\ segment_outcome e (to_pcm (buffer ++ reshape_flat indata))
         (set_audio_queue q (shared s)) w'.
Proof.
  intros Hp Hq Ht. cbn. unfold process_audio_iteration. rewrite Hp, Hq.
  destruct (loop_body_reached e buffer indata (set_audio_queue q (shared s)) Ht)
    as (w' & -> & Hout).
  by exists w'.
Qed.

Lemma segment_outcome_raises e pcm x w w' :
  segment_raises e pcm x ->
  segment_outcome e pcm w w' ->
  audio_queue w' = audio_queue w
  /\ last_lines w' = last_lines w
  /\ log w' = log w ++ [LogError "Whisper error: %s" x].
Proof.
  intros [(err & Herr & Hx)|[Hw Hx]] Hout; destruct Hout; subst; cbn;
    try congruence; simplify_eq; cbn; repeat split; congruence.
Qed.

Lemma segment_outcome_detected e pcm r w w' :
  wave_write e pcm = None ->
  transcribe e (Some pcm) = Return r ->
  str_truthy (strip r) = true ->
  segment_outcome e pcm w w' ->
  last_lines w' = lines_append (strip r, time_time e) (last_lines w).
Proof.
  intros Hw Hr Hs Hout; destruct Hout; subst; cbn; congruence.
Qed.

Lemma segment_outcome_blank e pcm r w w' :
  wave_write e pcm = None ->
  transcribe e (Some pcm) = Return r ->
  str_truthy (strip r) = false ->
  segment_outcome e pcm w w' ->
  audio_queue w' = audio_queue w
  /\ last_lines w' = last_lines w /\ log w' = log w.
Proof.
  intros Hw Hr Hs Hout; destruct Hout; subst; cbn; try congruence; done.
Qed.

(** The store after a segment, whatever the segment did. *)
Lemma segment_outcome_lines e pcm w w' :
  segment_outcome e pcm w w' ->
  last_lines w'
  = match wave_write e pcm, transcribe e (Some pcm) with
    | None, Return r =>
        if str_truthy (strip r)
        then lines_append (strip r, time_time e) (last_lines w)
        else last_lines w
    | _, _ => last_lines w
    end.
Proof.
  destruct 1 as [r Hw Hr Hs ->|r Hw Hr Hs ->|x Hw ->|x file Hw ->|x Hw Hr ->];
    rewrite Hw, ?Hr, ?Hs; reflexivity.
Qed.

(** C6: when the engine returns empty or whitespace-only text for a segment,
    whatever white space characters of Unicode it is made of, the stripped
    text is empty, no line is appended, and the line store (and the log) is
    the same after the segment as before. *)
Theorem C6_blank_text_appends_nothing
    (e : env) (buffer : list sample) (indata : ndarray2) (w : world)
    (result : string) :
  let seg := buffer ++ reshape_flat indata in
  threshold_reached seg = true ->
  wave_write e (to_pcm seg) = None ->
  transcribe e (Some (to_pcm seg)) = Return result ->
  whitespace_only result ->
  strip result = ""%string
  /\ exists w',
       loop_body e buffer indata w = (Return ([], Some seg), w')
       /\ last_lines w' = last_lines w
       /\ len (last_lines w') = len (last_lines w)
       /\ log w' = log w.
Proof.
  intros seg Ht Hw Hr Hs.
  pose proof (proj2 (strip_empty result) Hs) as Hstrip.
  split; [exact Hstrip|].
  destruct (loop_body_reached e buffer indata w Ht) as (w' & Heq & Hout).
  exists w'. split; [exact Heq|].
  assert (Hfalse : str_truthy (strip result) = false) by (by rewrite Hstrip).
  destruct (segment_outcome_blank _ _ result w w' Hw Hr Hfalse Hout)
    as (_ & Hl & Hlog).
  rewrite Hl. done.
Qed.

Lemma C6_blank_text_appends_nothing_witness :
  let e := stub blank_text 7 in
  let seg := [] ++ reshape_flat (silence 24000) in
  threshold_reached seg = true
  /\ wave_write e (to_pcm seg) = None
  /\ transcribe e (Some (to_pcm seg)) = Return blank_text
  /\ whitespace_only blank_text
  /\ (strip blank_text = ""%string
      /\ exists w',
           loop_body e [] (silence 24000) initial_world
           = (Return ([], Some seg), w')
           /\ last_lines w' = last_lines initial_world
           /\ len (last_lines w') = len (last_lines initial_world)
           /\ log w' = log initial_world).
Proof.
  intros e seg.
  assert (H1 : threshold_reached seg = true) by (vm_compute; reflexivity).
  assert (H2 : wave_write e (to_pcm seg) = None) by reflexivity.
  assert (H3 : transcribe e (Some (to_pcm seg)) = Return blank_text)
    by reflexivity.
  pose proof blank_text_whitespace_only as H4.
  split; [exact H1|]. split; [exact H2|]. split; [exact H3|].
  split; [exact H4|].
  exact (C6_blank_text_appends_nothing e [] (silence 24000) initial_world
           blank_text H1 H2 H3 H4).
Defined.

(** ** The capture callback *)

Lemma audio_callback_spec indata status w :
  audio_callback indata status w
  = (Return tt,
     World (audio_queue w ++ [indata]) (last_lines w) (temp_file w)
           (if status_truthy status then log w ++ [LogWarning status]
            else log w)).
Proof.
  unfold audio_callback, modify, mbind, M_bind, mret, M_ret.
  by destruct (status_truthy status).
Qed.

(** C10: when the device reports a status, the callback logs a warning,
    returns without raising, and the block is at the end of the queue all the
    same; nothing that was queued is lost. *)
Theorem C10_status_does_not_drop_frame
    (indata : ndarray2) (status : callback_flags) (w : world) :
  status <> 0%N ->
  exists w',
    audio_callback indata status w = (Return tt, w')
    /\ log w' = log w ++ [LogWarning status]
    /\ audio_queue w' = audio_queue w ++ [indata]
    /\ last_lines w' = last_lines w.
Proof.
  intros Hs. eexists. split; [apply audio_callback_spec|]. cbn.
  unfold status_truthy. destruct (N.eqb_spec status 0); [done|].
  by cbn.
Qed.

Lemma C10_status_does_not_drop_frame_witness :
  2%N <> 0%N
  /\ exists w',
       audio_callback (silence 3) 2%N initial_world = (Return tt, w')
       /\ log w' = log initial_world ++ [LogWarning 2%N]
       /\ audio_queue w' = audio_queue initial_world ++ [silence 3]
       /\ last_lines w' = last_lines initial_world.
Proof.
  assert (H : 2%N <> 0%N) by discriminate.
  split; [exact H|].
  exact (C10_status_does_not_drop_frame (silence 3) 2%N initial_world H).
Defined.

(** ** The event stream *)

Lemma snapshot_spec w : snapshot w = (Return (last_lines w), w).
Proof. reflexivity. Qed.

Lemma event_stream_iteration_spec prev w :
  event_stream_iteration prev w
  = (Return (if bool_decide (Some (last_lines w) ≠ prev)
             then (Some (Data (lines_json (last_lines w))),
                   Some (last_lines w))
             else (None, prev)), w).
Proof.
  unfold event_stream_iteration, snapshot, gets, mbind, M_bind, mret, M_ret.
  by destruct (bool_decide (Some (last_lines w) ≠ prev)).
Qed.

(** C7: a snapshot returns the lines of the store and leaves the shared
    state as it was, so two snapshots in a row return equal lists; a poll of
    the event stream between them changes nothing either. *)
Theorem C7_snapshot_idempotent (w : world) (prev : option (list line)) :
  let '(r1, w1) := snapshot w in
  let '(r2, w2) := snapshot w1 in
  r1 = Return (last_lines w) /\ r2 = r1 /\ w1 = w /\ w2 = w
  /\ snapshot (event_stream_iteration prev w).2 = snapshot w.
Proof.
  rewrite event_stream_iteration_spec. cbn.
  repeat split; reflexivity.
Qed.

(** ** Schedules *)

Lemma run_invariant (P : system -> list obs -> Prop) (s0 : system) :
  P s0 [] ->
  (forall a s tr, P s tr -> P (step a s).1 (tr ++ (step a s).2)) ->
  forall acts, P (run acts s0).1 (run acts s0).2.
Proof.
  intros H0 Hstep acts.
  enough (H : forall s tr, P s tr -> P (run acts s).1 (tr ++ (run acts s).2))
    by exact (H s0 [] H0).
  induction acts as [|a acts IH]; intros s tr HP; cbn.
  - by rewrite app_nil_r.
  - specialize (Hstep a s tr HP).
    destruct (step a s) as [s1 o1]. cbn in Hstep.
    specialize (IH s1 (tr ++ o1) Hstep).
    destruct (run acts s1) as [s2 o2]. cbn in *.
    by rewrite app_assoc.
Qed.

Lemma step_poll_spec c s :
  step (Poll c) s
  = match connections s !! c with
    | None => (s, [])
    | Some prev =>
        if bool_decide (Some (last_lines (shared s)) ≠ prev)
        then (System (shared s) (process_audio s)
                     (<[c := Some (last_lines (shared s))]> (connections s)),
              [Sent c (Data (lines_json (last_lines (shared s))))])
        else (s, [])
    end.
Proof.
  cbn [step]. destruct (connections s !! c) as [prev|] eqn:Hc; [|done].
  rewrite event_stream_iteration_spec.
  destruct (bool_decide (Some (last_lines (shared s)) ≠ prev)); [done|].
  rewrite list_insert_id by done. by destruct s.
Qed.

(** On a connection that has not been polled [prev] is still [None]. *)
Lemma step_keeps_prev c a s :
  is_poll c a = false ->
  connections s !! c = Some None ->
  connections (step a s).1 !! c = Some None.
Proof.
  intros Ha Hc. destruct a as [indata status|e| |c'].
  - cbn [step]. by rewrite audio_callback_spec.
  - cbn [step]. destruct (process_audio s) as [buffer|x]; [|done].
    by destruct (process_audio_iteration e buffer (shared s))
      as [[[[b' [seg|]]|x] w']|].
  - cbn. rewrite lookup_app_l; [done|]. by eapply lookup_lt_Some.
  - rewrite step_poll_spec. cbn in Ha. apply bool_decide_eq_false in Ha.
    destruct (connections s !! c') as [prev|]; [|done].
    destruct (bool_decide _); [|done]. cbn.
    by rewrite list_lookup_insert_ne.
Qed.

Lemma run_keeps_prev c acts s :
  connections s !! c = Some None ->
  connections (run (filter (fun a => is_poll c a = false) acts) s).1 !! c
  = Some None.
Proof.
  revert s. induction acts as [|a acts IH]; intros s Hc; [done|].
  destruct (is_poll c a) eqn:Ha.
  - rewrite filter_cons_False by (by rewrite Ha). by apply IH.
  - rewrite filter_cons_True by done. cbn [run].
    pose proof (step_keeps_prev c a s Ha Hc) as Hc1.
    destruct (step a s) as [s1 o1]. cbn [fst] in Hc1.
    specialize (IH s1 Hc1). by destruct (run _ s1).
Qed.

(** C8: the first iteration of a new generator yields one event with the
    current snapshot, whatever the store holds, because [prev] starts as
    [None]: the payload is the array of the objects {text, ts} of the stored
    lines, oldest first, and [prev] becomes that snapshot.  For the empty
    store the payload is the empty array.  The same holds when the first
    iteration comes later: whatever the other threads and connections have
    done in between, it sends the snapshot of that moment. *)
Theorem C8_first_poll_sends_snapshot (s : system) :
  let c := length (connections s) in
  let cur := last_lines (shared s) in
  let s1 := (step Connect s).1 in
  connections s1 !! c = Some None
  /\ step (Poll c) s1
     = (System (shared s) (process_audio s) (connections s ++ [Some cur]),
        [Sent c (Data (JArray (map (fun l : line =>
                                      [("text"%string, JString l.1);
                                       ("ts"%string, JNumber l.2)]) cur)))])
  /\ (step (Poll 0) (step Connect initial_system).1).2
     = [Sent 0 (Data (JArray []))]
  /\ forall acts : list action,
       let s2 := (run (filter (fun a => is_poll c a = false) acts) s1).1 in
       (step (Poll c) s2).2
       = [Sent c (Data (JArray (map (fun l : line =>
                                       [("text"%string, JString l.1);
                                        ("ts"%string, JNumber l.2)])
                                    (last_lines (shared s2)))))].
Proof.
  intros c cur s1.
  assert (Hc : connections s1 !! c = Some None).
  { unfold s1, c. cbn. by rewrite list_lookup_middle. }
  split; [exact Hc|]. split; [|split; [reflexivity|]].
  - cbn [step]. rewrite Hc, event_stream_iteration_spec.
    rewrite bool_decide_true by discriminate.
    unfold s1, c, cur. cbn. do 2 f_equal.
    rewrite insert_app_r_alt by lia.
    by rewrite Nat.sub_diag.
  - intros acts s2. rewrite step_poll_spec.
    unfold s2. rewrite (run_keeps_prev c acts s1 Hc).
    by rewrite bool_decide_true.
Qed.

Example first_poll_of_empty_store :
  (run [Connect; Poll 0] initial_system).2 = [Sent 0 (Data (JArray []))].
Proof. reflexivity. Qed.

(** A viewer that connects when the store is full gets its three lines. *)
Example first_poll_of_full_store :
  sent 0 (run (four_segments ++ [Connect; Poll 0]) initial_system).2
  = [Data (JArray [[("text"%string, JString "b"); ("ts"%string, JNumber 2)];
                   [("text"%string, JString "c"); ("ts"%string, JNumber 3)];
                   [("text"%string, JString "d"); ("ts"%string, JNumber 4)]])].
Proof. vm_compute. reflexivity. Qed.

Lemma captured_app tr o : captured (tr ++ o) = captured tr ++ captured o.
Proof. apply omap_app. Qed.
Lemma segments_app tr o : segments (tr ++ o) = segments tr ++ segments o.
Proof. apply omap_app. Qed.
Lemma sent_app c tr o : sent c (tr ++ o) = sent c tr ++ sent c o.
Proof. apply omap_app. Qed.

(** ** The segmenter *)

Lemma segment_ok_mono tr o seg : segment_ok tr seg -> segment_ok (tr ++ o) seg.
Proof.
  intros (Ht & before & f & Hf & Hless). split; [done|].
  exists before, f. split; [|done].
  rewrite captured_app. apply elem_of_app. by left.
Qed.

Lemma segmenter_inv_frame s s' tr o :
  segmenter_inv s tr ->
  shared s' = shared s -> process_audio s' = process_audio s ->
  captured o = [] -> segments o = [] ->
  segmenter_inv s' (tr ++ o).
Proof.
  intros (buffer & Hp & Hb & Hcons & Hq & Hsegs) Hw Hpa Hc Hs.
  exists buffer. unfold segment_ok.
  rewrite captured_app, segments_app, Hc, Hs, !app_nil_r, Hw, Hpa.
  done.
Qed.

Lemma segmenter_inv_step a s tr :
  segmenter_inv s tr -> segmenter_inv (step a s).1 (tr ++ (step a s).2).
Proof.
  intros (buffer & Hp & Hb & Hcons & Hq & Hsegs).
  destruct a as [indata status|e| |c].
  - (* Capture *)
    cbn [step]. rewrite audio_callback_spec. cbn.
    exists buffer. rewrite captured_app, segments_app. cbn.
    rewrite app_nil_r, !samples_of_blocks_app, <- Hcons.
    split; [done|]. split; [done|].
    split; [by rewrite <- !app_assoc|]. split.
    + apply Forall_app. split.
      * eapply Forall_impl; [|exact Hq]. intros f Hf.
        apply elem_of_app. by left.
      * repeat constructor. apply elem_of_app. right. by constructor.
    + eapply Forall_impl; [|exact Hsegs]. intros seg Hseg.
      by apply (segment_ok_mono tr [Captured indata]).
  - (* Consume *)
    destruct (audio_queue (shared s)) as [|indata q] eqn:Hqueue.
    { cbn. unfold process_audio_iteration. rewrite Hp, Hqueue. cbn.
      rewrite app_nil_r. exists buffer. by rewrite Hqueue. }
    apply Forall_cons_1 in Hq as [Hin Hq].
    destruct (threshold_reached (buffer ++ reshape_flat indata)) eqn:Ht.
    + destruct (step_consume_reached s buffer indata q e Hp Hqueue Ht)
        as (w' & -> & Hout).
      apply segment_outcome_queue in Hout. cbn in Hout. cbn.
      exists []. cbn [shared process_audio]. rewrite captured_app, segments_app, Hout. cbn.
      rewrite !app_nil_r, concat_app. cbn. rewrite app_nil_r.
      split; [done|]. split; [done|]. split; [|split; [done|]].
      * rewrite <- Hcons, samples_of_blocks_cons.
        by rewrite <- !app_assoc.
      * apply Forall_app. split.
        { eapply Forall_impl; [|exact Hsegs]. intros seg Hseg.
          by apply segment_ok_mono. }
        repeat constructor; [by apply threshold_reached_true|].
        exists buffer, indata. split.
        { rewrite captured_app. apply elem_of_app. by left. }
        split; [done|]. by apply threshold_reached_false.
    + rewrite (step_consume_below s buffer indata q e Hp Hqueue Ht). cbn.
      exists (buffer ++ reshape_flat indata). rewrite app_nil_r.
      split; [done|]. split; [done|]. split; [|done].
      rewrite <- Hcons, samples_of_blocks_cons.
      by rewrite <- !app_assoc.
  - (* Connect *)
    apply (segmenter_inv_frame s); [by exists buffer|done..].
  - (* Poll *)
    rewrite step_poll_spec.
    assert (Hinv : segmenter_inv s tr) by (by exists buffer).
    destruct (connections s !! c) as [prev|];
      [destruct (bool_decide _)|]; by apply (segmenter_inv_frame s).
Qed.

Lemma segmenter_inv_run acts :
  segmenter_inv (run acts initial_system).1 (run acts initial_system).2.
Proof.
  apply run_invariant; [|apply segmenter_inv_step].
  exists []. cbn. repeat split; constructor.
Qed.



Example thirteen_blocks_lengths :
  let r := run thirteen_blocks initial_system in
  map len (segments r.2) = [24576]
  /\ len (samples_of_blocks (captured r.2)) = 26624
  /\ match process_audio r.1 with
     | Running buffer => len buffer = 2048
     | Died _ => False
     end.
Proof. vm_compute. repeat split; reflexivity. Qed.

(** C5: every emitted segment has at least SAMPLE_RATE * 1.5 = 24000
    samples, and it is a buffer that was below the threshold followed by one
    captured block: it exceeds the threshold by less than that block. *)
Theorem C5_segment_length (acts : list action) :
  let tr := (run acts initial_system).2 in
  Forall (fun seg =>
            3 * SAMPLE_RATE <= 2 * len seg
            /\ 24000 <= len seg
            /\ exists before f,
                 f ∈ captured tr
                 /\ seg = before ++ reshape_flat f
                 /\ len before < 24000
                 /\ len seg - 24000 < len (reshape_flat f))
         (segments tr).
Proof.
  intros tr.
  destruct (segmenter_inv_run acts) as (_ & _ & _ & _ & _ & Hsegs).
  fold tr in Hsegs.
  eapply Forall_impl; [|exact Hsegs].
  intros seg (Hge & before & f & Hf & -> & Hlt).
  unfold SAMPLE_RATE in *.
  split; [done|]. split; [lia|].
  exists before, f. rewrite len_app in *. repeat split; try done; lia.
Qed.

(** ** A segment that fails *)

(** While the buffer stays below the threshold the consumer only moves
    blocks from the queue to the buffer, whatever the device and the viewers
    do in between. *)
Lemma run_below acts : forall s buffer blocks rest,
  process_audio s = Running buffer ->
  audio_queue (shared s) = blocks ++ rest ->
  iterations acts = length blocks ->
  threshold_reached (buffer ++ samples_of_blocks blocks) = false ->
  process_audio (run acts s).1 = Running (buffer ++ samples_of_blocks blocks)
  /\ audio_queue (shared (run acts s).1) = rest ++ captured (run acts s).2
  /\ segments (run acts s).2 = []
  /\ last_lines (shared (run acts s).1) = last_lines (shared s).
Proof.
  induction acts as [|a acts IH]; intros s buffer blocks rest Hp Hq Hn Ht.
  { destruct blocks; [|done]. cbn. unfold samples_of_blocks. cbn.
    by rewrite !app_nil_r. }
  assert (Hframe : forall s1 o1,
            step a s = (s1, o1) ->
            iterations acts = iterations (a :: acts) ->
            process_audio s1 = process_audio s ->
            audio_queue (shared s1) = audio_queue (shared s) ++ captured o1 ->
            last_lines (shared s1) = last_lines (shared s) ->
            segments o1 = [] ->
            process_audio (run (a :: acts) s).1
            = Running (buffer ++ samples_of_blocks blocks)
            /\ audio_queue (shared (run (a :: acts) s).1)
               = rest ++ captured (run (a :: acts) s).2
            /\ segments (run (a :: acts) s).2 = []
            /\ last_lines (shared (run (a :: acts) s).1)
               = last_lines (shared s)).
  { intros s1 o1 Hstep Hn1 Hp1 Hq1 Hl1 Hs1. cbn [run]. rewrite Hstep.
    destruct (IH s1 buffer blocks (rest ++ captured o1))
      as (H1 & H2 & H3 & H4); [congruence| |congruence|done|].
    { by rewrite Hq1, Hq, app_assoc. }
    destruct (run acts s1) as [s2 o2]. cbn [fst snd] in *.
    rewrite captured_app, segments_app, Hs1, H3, app_assoc.
    split; [done|]. split; [done|]. split; [done|]. congruence. }
  destruct a as [indata status|e| |c].
  - eapply Hframe; [cbn [step]; by rewrite audio_callback_spec|done..].
  - destruct blocks as [|b blocks]; [done|]. injection Hn as Hn.
    rewrite samples_of_blocks_cons, app_assoc in Ht |- *.
    cbn [run].
    rewrite (step_consume_below s buffer b (blocks ++ rest) e Hp Hq)
      by (by apply threshold_reached_prefix in Ht).
    destruct (IH (System (set_audio_queue (blocks ++ rest) (shared s))
                         (Running (buffer ++ reshape_flat b)) (connections s))
                 (buffer ++ reshape_flat b) blocks rest)
      as (H1 & H2 & H3 & H4); [done..|].
    by destruct (run acts _) as [s2 o2].
  - eapply Hframe; [reflexivity|done|done| |done|done].
    cbn. by rewrite app_nil_r.
  - assert (Hpoll : shared (step (Poll c) s).1 = shared s
                     /\ process_audio (step (Poll c) s).1 = process_audio s
                     /\ captured (step (Poll c) s).2 = []
                     /\ segments (step (Poll c) s).2 = []).
    { rewrite step_poll_spec.
      by destruct (connections s !! c) as [prev|];
        [destruct (bool_decide _)|]. }
    destruct Hpoll as (Hw & Hpa & Hc & Hs).
    destruct (step (Poll c) s) as [s1 o1]. cbn [fst snd] in *.
    eapply Hframe; [reflexivity|done|done| |by rewrite Hw|done].
    by rewrite Hw, Hc, app_nil_r.
Qed.

(** C3: when the try block of a segment raises, the exception is caught and
    logged, the line store is as before, the buffer is reset and the consumer
    keeps running with the rest of the queue.  The next segment, which the
    following iterations assemble from as many blocks as it takes while the
    device and the viewers go on, is handed to the transcription like any
    other: with a text that is not blank its line is appended to the store
    as the failed segment left it.  And whatever the engine and the file
    system do, under no schedule does an exception end the consumer. *)
Theorem C3_engine_error_is_survived
    (s : system) (buffer : list sample) (indata : ndarray2)
    (q : list ndarray2) (e : env) (x : exn) :
  let seg := buffer ++ reshape_flat indata in
  process_audio s = Running buffer ->
  audio_queue (shared s) = indata :: q ->
  threshold_reached seg = true ->
  segment_raises e (to_pcm seg) x ->
  let s1 := (step (Consume e) s).1 in
  (step (Consume e) s).2 = [Segment seg]
  /\ process_audio s1 = Running []
  /\ audio_queue (shared s1) = q
  /\ last_lines (shared s1) = last_lines (shared s)
  /\ log (shared s1) = log (shared s) ++ [LogError "Whisper error: %s" x]
  /\ (forall (blocks : list ndarray2) (last : ndarray2)
             (rest : list ndarray2) (acts : list action) (e2 : env),
       let seg2 := samples_of_blocks (blocks ++ [last]) in
       q = blocks ++ last :: rest ->
       iterations acts = length blocks ->
       threshold_reached (samples_of_blocks blocks) = false ->
       threshold_reached seg2 = true ->
       let r := run (acts ++ [Consume e2]) s1 in
       segments r.2 = [seg2]
       /\ process_audio r.1 = Running []
       /\ audio_queue (shared r.1) = rest ++ captured r.2
       /\ last_lines (shared r.1)
          = match wave_write e2 (to_pcm seg2),
                  transcribe e2 (Some (to_pcm seg2)) with
            | None, Return r2 =>
                if str_truthy (strip r2)
                then lines_append (strip r2, time_time e2)
                       (last_lines (shared s))
                else last_lines (shared s)
            | _, _ => last_lines (shared s)
            end)
  /\ forall acts : list action,
       exists buffer', process_audio (run acts initial_system).1
                       = Running buffer'.
Proof.
  intros seg Hp Hq Ht Hx s1.
  destruct (step_consume_reached s buffer indata q e Hp Hq Ht)
    as (w1 & Hstep1 & Hout1).
  destruct (segment_outcome_raises _ _ _ _ _ Hx Hout1) as (Hq1 & Hl1 & Hlog1).
  assert (Hs1 : s1 = System w1 (Running []) (connections s)).
  { unfold s1. by rewrite Hstep1. }
  rewrite Hstep1, Hs1. cbn [fst snd shared process_audio].
  split; [done|]. split; [done|]. split; [done|]. split; [done|].
  split; [done|]. split.
  2:{ intros acts.
      destruct (segmenter_inv_run acts) as (buffer' & Hrun & _).
      by exists buffer'. }
  intros blocks last rest acts e2 -> Hn Hbelow Hreach.
  rewrite samples_of_blocks_snoc in *.
  destruct (run_below acts (System w1 (Running []) (connections s)) []
              blocks (last :: rest))
    as (Hpa & Hqa & Hsa & Hla); [done|done|done|done|].
  rewrite run_app.
  destruct (run acts (System w1 (Running []) (connections s))) as [sa oa].
  cbn [fst snd shared app] in Hpa, Hqa, Hsa, Hla.
  destruct (step_consume_reached sa (samples_of_blocks blocks) last
              (rest ++ captured oa) e2)
    as (w2 & Hstep2 & Hout2); [done|done|done|].
  cbn [run]. rewrite Hstep2. cbn [fst snd shared process_audio].
  rewrite app_nil_r, segments_app, captured_app, Hsa. cbn.
  rewrite app_nil_r.
  split; [done|]. split; [done|]. split.
  - by apply segment_outcome_queue in Hout2.
  - apply segment_outcome_lines in Hout2. rewrite Hout2. cbn.
    by rewrite Hla, Hl1.
Qed.

Lemma C3_engine_error_is_survived_witness :
  let s := (run eleven_blocks_taken initial_system).1 in
  let buffer := samples_of_blocks (replicate 11 (silence BLOCKSIZE)) in
  let indata := silence BLOCKSIZE in
  let blocks := replicate 11 (silence BLOCKSIZE) in
  let last := silence BLOCKSIZE in
  let e := failing_engine "model error" in
  let acts := eleven_more_iterations in
  let e2 := stub " hello " 9 in
  let seg := buffer ++ reshape_flat indata in
  let seg2 := samples_of_blocks (blocks ++ [last]) in
  process_audio s = Running buffer
  /\ audio_queue (shared s) = indata :: blocks ++ last :: []
  /\ threshold_reached seg = true
  /\ segment_raises e (to_pcm seg) (Exception "model error")
  /\ iterations acts = length blocks
  /\ threshold_reached (samples_of_blocks blocks) = false
  /\ threshold_reached seg2 = true
  /\ segments (run (acts ++ [Consume e2]) (step (Consume e) s).1).2 = [seg2].
Proof.
  intros s buffer indata blocks last e acts e2 seg seg2.
  assert (H1 : process_audio s = Running buffer) by reflexivity.
  assert (H2 : audio_queue (shared s) = indata :: blocks ++ last :: [])
    by reflexivity.
  assert (H3 : threshold_reached seg = true) by (vm_compute; reflexivity).
  assert (H4 : segment_raises e (to_pcm seg) (Exception "model error")).
  { right. split; reflexivity. }
  assert (H5 : iterations acts = length blocks) by reflexivity.
  assert (H6 : threshold_reached (samples_of_blocks blocks) = false)
    by (vm_compute; reflexivity).
  assert (H7 : threshold_reached seg2 = true) by (vm_compute; reflexivity).
  split; [exact H1|]. split; [exact H2|]. split; [exact H3|].
  split; [exact H4|]. split; [exact H5|]. split; [exact H6|].
  split; [exact H7|].
  exact (proj1 (proj1 (proj2 (proj2 (proj2 (proj2 (proj2
    (C3_engine_error_is_survived s buffer indata (blocks ++ last :: [])
       e (Exception "model error") H1 H2 H3 H4))))))
    blocks last [] acts e2 eq_refl H5 H6 H7)).
Defined.

(** After eleven device blocks a segment fails at the twelfth; the twelve
    blocks that follow make the next segment, and its line is stored.  The
    block captured in between waits in the queue. *)
Example failed_segment_then_hello :
  let r := run (eleven_blocks_taken
                ++ [Consume (failing_engine "model error")]
                ++ eleven_more_iterations
                ++ [Consume (stub " hello " 9)]) initial_system in
  map len (segments r.2) = [24576; 24576]
  /\ last_lines (shared r.1) = [("hello"%string, 9)]
  /\ list.last (log (shared r.1)) = Some (LogInfo "Detected: hello")
  /\ map len (audio_queue (shared r.1)) = [2048]
  /\ sent 0 r.2 = [Data (JArray [])].
Proof. vm_compute. repeat split; reflexivity. Qed.

(** ** The line store under every schedule *)

Lemma segment_outcome_store e pcm w w' :
  segment_outcome e pcm w w' ->
  len (last_lines w) <= MAX_LINES -> len (last_lines w') <= MAX_LINES.
Proof.
  destruct 1; subst; cbn; try done. intros _. apply lines_append_len.
Qed.

Lemma store_inv_step a s tr :
  store_inv s tr -> store_inv (step a s).1 (tr ++ (step a s).2).
Proof.
  unfold store_inv. intros H.
  destruct a as [indata status|e| |c].
  - cbn [step]. by rewrite audio_callback_spec.
  - cbn [step]. destruct (process_audio s) as [buffer|x] eqn:Hp; [|done].
    unfold process_audio_iteration.
    destruct (audio_queue (shared s)) as [|indata q] eqn:Hq; [done|].
    destruct (threshold_reached (buffer ++ reshape_flat indata)) eqn:Ht.
    + destruct (loop_body_reached e buffer indata
                  (set_audio_queue q (shared s)) Ht) as (w' & -> & Hout).
      cbn. by apply (segment_outcome_store _ _ _ _ Hout).
    + by rewrite loop_body_below.
  - done.
  - rewrite step_poll_spec.
    by destruct (connections s !! c) as [prev|]; [destruct (bool_decide _)|].
Qed.

Lemma store_inv_run acts :
  len (last_lines (shared (run acts initial_system).1)) <= MAX_LINES.
Proof.
  apply (run_invariant store_inv); [|apply store_inv_step].
  unfold store_inv. vm_compute. discriminate.
Qed.

(** ** The event stream under every schedule *)

Lemma line_json_inj l1 l2 : line_json l1 = line_json l2 -> l1 = l2.
Proof.
  destruct l1, l2. unfold line_json. cbn. intros H. by simplify_eq.
Qed.

Lemma event_of_inj cur1 cur2 : event_of cur1 = event_of cur2 -> cur1 = cur2.
Proof.
  unfold event_of, lines_json. intros H. simplify_eq.
  revert cur2 H. induction cur1 as [|l1 cur1 IH]; intros [|l2 cur2] H;
    try discriminate H; [done|].
  injection H as Htext Hts Hrest.
  f_equal; [|by apply IH].
  destruct l1, l2. cbn in *. congruence.
Qed.

Lemma stream_inv_frame s s' tr o :
  stream_inv s tr ->
  connections s' = connections s -> (forall c, sent c o = []) ->
  stream_inv s' (tr ++ o).
Proof.
  intros [H1 H2] Hc Ho. unfold stream_inv, last_sent.
  rewrite Hc. setoid_rewrite sent_app. setoid_rewrite Ho.
  setoid_rewrite app_nil_r. done.
Qed.

Lemma stream_inv_step a s tr :
  stream_inv s tr -> stream_inv (step a s).1 (tr ++ (step a s).2).
Proof.
  intros Hinv.
  destruct a as [indata status|e| |c0].
  - cbn [step]. rewrite audio_callback_spec.
    by apply (stream_inv_frame s).
  - cbn [step]. destruct (process_audio s) as [buffer|x];
      [|by apply (stream_inv_frame s)].
    destruct (process_audio_iteration e buffer (shared s))
      as [[[[b' [seg|]]|x] w']|]; by apply (stream_inv_frame s).
  - destruct Hinv as [H1 H2]. cbn [step fst snd]. rewrite app_nil_r.
    split; cbn [connections].
    + intros c prev Hc.
      destruct (decide (c < length (connections s))%nat) as [Hlt|Hge].
      * rewrite lookup_app_l in Hc by done. by apply H1.
      * rewrite lookup_app_r in Hc by lia.
        destruct (c - length (connections s))%nat eqn:Hd; [|done].
        cbn in Hc. simplify_eq. unfold last_sent.
        rewrite H2 by lia. done.
    + intros c Hc. rewrite length_app in Hc. cbn in Hc. apply H2. lia.
  - rewrite step_poll_spec.
    destruct (connections s !! c0) as [prev0|] eqn:Hc0;
      [|by apply (stream_inv_frame s)].
    destruct (bool_decide _); [|by apply (stream_inv_frame s)].
    destruct Hinv as [H1 H2]. cbn [fst snd].
    pose proof (lookup_lt_Some _ _ _ Hc0) as Hlt. split; cbn [connections].
    + intros c prev Hc. unfold last_sent. rewrite sent_app. cbn.
      destruct (decide (c0 = c)) as [->|Hne].
      * rewrite list_lookup_insert_eq in Hc by done. simplify_eq.
        by rewrite last_snoc.
      * rewrite list_lookup_insert_ne in Hc by done.
        rewrite app_nil_r. by apply H1.
    + intros c Hc. rewrite length_insert in Hc. rewrite sent_app. cbn.
      destruct (decide (c0 = c)) as [->|Hne]; [lia|].
      rewrite app_nil_r. by apply H2.
Qed.

Lemma stream_inv_run acts :
  stream_inv (run acts initial_system).1 (run acts initial_system).2.
Proof.
  apply run_invariant; [|apply stream_inv_step].
  split; [by intros c prev H|done].
Qed.

(** C4: under every schedule, [prev] of a connection is the snapshot of the
    last event sent on it (none before the first one); a poll sends an event
    exactly when the current snapshot differs from it; the payload is the
    array of the objects {text, ts} of the stored lines, oldest first, and has
    at most MAX_LINES entries. *)
Theorem C4_event_iff_snapshot_changed
    (acts : list action) (c : nat) (prev : option (list line)) :
  let s := (run acts initial_system).1 in
  let tr := (run acts initial_system).2 in
  let cur := last_lines (shared s) in
  connections s !! c = Some prev ->
  last_sent c tr = event_of <$> prev
  /\ (step (Poll c) s).2
     = (if decide (prev = Some cur) then [] else [Sent c (event_of cur)])
  /\ (prev = Some cur <-> last_sent c tr = Some (event_of cur))
  /\ event_of cur
     = Data (JArray (map (fun l : line =>
                            [("text"%string, JString l.1);
                             ("ts"%string, JNumber l.2)]) cur))
  /\ len cur <= MAX_LINES.
Proof.
  intros s tr cur Hc.
  destruct (stream_inv_run acts) as [Hprev _].
  specialize (Hprev c prev Hc). fold tr in Hprev.
  split; [exact Hprev|]. split; [|split; [|split]].
  - rewrite step_poll_spec, Hc. fold cur.
    destruct (decide (prev = Some cur)) as [->|Hne].
    + rewrite bool_decide_false; [done|]. by intros H.
    + rewrite bool_decide_true; [done|]. by intros H.
  - rewrite Hprev. split; [by intros ->|].
    destruct prev as [p|]; cbn; [|done].
    intros H. f_equal. apply event_of_inj. congruence.
  - reflexivity.
  - apply store_inv_run.
Qed.

Lemma C4_event_iff_snapshot_changed_witness :
  let s := (run one_line_then_poll initial_system).1 in
  let tr := (run one_line_then_poll initial_system).2 in
  let cur := last_lines (shared s) in
  let prev := Some [("hi"%string, 5)] in
  connections s !! 0%nat = Some prev
  /\ (step (Poll 0) s).2
     = (if decide (prev = Some cur) then [] else [Sent 0 (event_of cur)]).
Proof.
  intros s tr cur prev.
  assert (H : connections s !! 0%nat = Some prev) by (vm_compute; reflexivity).
  split; [exact H|].
  exact (proj1 (proj2
    (C4_event_iff_snapshot_changed one_line_then_poll 0 prev H))).
Defined.

Example second_poll_is_silent :
  sent 0 (run (one_line_then_poll ++ [Poll 0]) initial_system).2
  = [Data (JArray [[("text"%string, JString "hi");
                    ("ts"%string, JNumber 5)]])].
Proof. vm_compute. reflexivity. Qed.

(** ** The PCM conversion *)

Lemma shifted_0 M : shifted M 0 (Build_shr_record M false false).
Proof.
  split; cbn.
  - by rewrite Z.div_1_r.
  - by rewrite Z.mod_1_r.
Qed.

Lemma shifted_step M n r :
  0 <= M -> 0 <= n -> shifted M n r -> shifted M (n + 1) (shr_1 r).
Proof.
  intros HM Hn [Hm Hrs].
  assert (Hpow : 0 < 2 ^ n) by (apply Z.pow_pos_nonneg; lia).
  assert (Hq : 0 <= M / 2 ^ n) by (apply Z.div_pos; lia).
  assert (Hr : 0 <= M mod 2 ^ n < 2 ^ n) by (apply Z.mod_pos_bound; lia).
  assert (Hdiv : M / 2 ^ (n + 1) = M / 2 ^ n / 2).
  { rewrite Z.pow_add_r, Z.pow_1_r by lia. rewrite Z.div_div; lia. }
  assert (Hmod : M mod 2 ^ (n + 1) = M mod 2 ^ n + 2 ^ n * ((M / 2 ^ n) mod 2)).
  { rewrite Z.pow_add_r, Z.pow_1_r by lia. apply Z.rem_mul_r; lia. }
  assert (Ht : if shr_r r || shr_s r then M mod 2 ^ n <> 0
               else M mod 2 ^ n = 0).
  { destruct (shr_r r || shr_s r).
    - intros H. apply Hrs in H. discriminate.
    - by apply Hrs. }
  clear Hrs. unfold shifted. rewrite Hdiv, Hmod, <- Hm. clear Hdiv Hmod.
  rewrite <- Hm in Hq. clear Hm.
  destruct r as [m r s]. cbn [shr_m shr_r shr_s] in *.
  destruct m as [|[p|p|]|p]; cbn [shr_1 shr_m shr_r shr_s orb]; try lia.
  - split; [done|]. change (0 mod 2) with 0.
    destruct (r || s); split; try discriminate; try done; lia.
  - rewrite Pos2Z.inj_xI.
    assert (H2 : (2 * Z.pos p + 1) mod 2 = 1)
      by (Z.div_mod_to_equations; lia).
    rewrite H2. split; [Z.div_mod_to_equations; lia|].
    split; [discriminate|lia].
  - rewrite Pos2Z.inj_xO.
    assert (H2 : (2 * Z.pos p) mod 2 = 0) by (Z.div_mod_to_equations; lia).
    rewrite H2. split; [Z.div_mod_to_equations; lia|].
    destruct (r || s); split; try discriminate; try done; lia.
  - split; [done|]. split; [discriminate|].
    change (1 mod 2) with 1. lia.
Qed.

Lemma shifted_iter M p : 0 <= M ->
  forall n r, 0 <= n -> shifted M n r ->
              shifted M (n + Z.pos p) (iter_pos shr_1 p r).
Proof.
  intros HM. induction p as [p IH|p IH|]; intros n r Hn Hr; cbn [iter_pos].
  - replace (n + Z.pos p~1) with (n + 1 + Z.pos p + Z.pos p) by lia.
    apply IH; [lia|]. apply IH; [lia|]. by apply shifted_step.
  - replace (n + Z.pos p~0) with (n + Z.pos p + Z.pos p) by lia.
    apply IH; [lia|]. by apply IH.
  - by apply shifted_step.
Qed.

(** [shr] from an exact record: [Z.max n 0] shifts. *)
Lemma shr_shifted M e n :
  0 <= M ->
  shifted M (Z.max n 0) (shr (Build_shr_record M false false) e n).1
  /\ (shr (Build_shr_record M false false) e n).2 = e + Z.max n 0.
Proof.
  intros HM. destruct n as [|p|p]; cbn [shr fst snd].
  - split; [apply shifted_0|lia].
  - split; [|lia]. replace (Z.max (Z.pos p) 0) with (0 + Z.pos p) by lia.
    apply shifted_iter; [done|lia|apply shifted_0].
  - split; [apply shifted_0|lia].
Qed.

(** Rounding to nearest even after [n] shifts stays below every bound [K]
    that [M] stays below before them. *)
Lemma round_nearest_even_le M n r K :
  0 <= M -> 0 <= n -> shifted M n r -> M <= K * 2 ^ n ->
  0 <= round_nearest_even (shr_m r) (loc_of_shr_record r) <= K.
Proof.
  intros HM Hn [Hm Hrs] HK.
  assert (Hpow : 0 < 2 ^ n) by (apply Z.pow_pos_nonneg; lia).
  assert (Hq : 0 <= M / 2 ^ n) by (apply Z.div_pos; lia).
  pose proof (Z.div_mod M (2 ^ n) ltac:(lia)) as Hdm.
  pose proof (Z.mod_pos_bound M (2 ^ n) Hpow) as Hr.
  destruct r as [m r s]. cbn [shr_m shr_r shr_s] in *. subst m.
  assert (Hexact : M / 2 ^ n <= K) by nia.
  assert (Hinexact : r || s = true -> M / 2 ^ n + 1 <= K).
  { intros H. assert (M mod 2 ^ n <> 0).
    { intros H0. apply Hrs in H0. congruence. }
    nia. }
  destruct r, s; cbn [loc_of_shr_record round_nearest_even];
    try destruct (Z.even _); cbn [orb] in Hinexact; lia.
Qed.

Lemma digits2_pos_lower p : 2 ^ (Z.pos (digits2_pos p) - 1) <= Z.pos p.
Proof.
  induction p as [p IH|p IH|]; cbn [digits2_pos]; [| |done].
  all: rewrite Pos2Z.inj_succ.
  all: replace (Z.succ (Z.pos (digits2_pos p)) - 1)
         with (Z.pos (digits2_pos p) - 1 + 1) by lia.
  all: rewrite Z.pow_add_r, Z.pow_1_r by lia; lia.
Qed.

Lemma Zdigits2_le M k : 0 <= M < 2 ^ k -> 0 <= k -> Zdigits2 M <= k.
Proof.
  intros [H0 Hk] Hk0. destruct M as [|p|p]; cbn [Zdigits2]; [lia| |lia].
  pose proof (digits2_pos_lower p) as Hp.
  destruct (Z.le_gt_cases (Z.pos (digits2_pos p)) k) as [|Hgt]; [done|].
  assert (2 ^ k <= 2 ^ (Z.pos (digits2_pos p) - 1))
    by (apply Z.pow_le_mono_r; lia).
  lia.
Qed.

Lemma shr_fexp_exact M e (HM : 0 <= M) :
  let n := Z.max (fexp F32.prec F32.emax (Zdigits2 M + e) - e) 0 in
  shifted M n (shr_fexp F32.prec F32.emax M e loc_Exact).1
  /\ (shr_fexp F32.prec F32.emax M e loc_Exact).2 = e + n.
Proof. apply shr_shifted, HM. Qed.

Lemma shr_fexp_exponent M e :
  0 <= M -> e <= -9 -> M <= 32767 * 2 ^ (- e) ->
  e + Z.max (fexp F32.prec F32.emax (Zdigits2 M + e) - e) 0 <= -9.
Proof.
  intros HM He HK.
  assert (Hpow : 0 < 2 ^ (- e)) by (apply Z.pow_pos_nonneg; lia).
  assert (Hd : Zdigits2 M <= 15 - e).
  { apply Zdigits2_le; [|lia]. split; [done|].
    replace (15 - e) with (15 + - e) by lia.
    rewrite Z.pow_add_r by lia. change (2 ^ 15) with 32768. lia. }
  unfold fexp, emin, F32.prec, F32.emax. lia.
Qed.

Lemma binary_round_aux_bound sx M e :
  0 <= M -> e <= -9 -> M <= 32767 * 2 ^ (- e) ->
  exists z, F32.trunc (binary_round_aux F32.prec F32.emax sx M e loc_Exact) = Some z
            /\ -32767 <= z <= 32767.
Proof.
  intros HM He HK. unfold binary_round_aux.
  destruct (shr_fexp_exact M e HM) as [Hr1 He1].
  pose proof (shr_fexp_exponent M e HM He HK) as Hle1.
  destruct (shr_fexp F32.prec F32.emax M e loc_Exact) as [r1 e1].
  cbn [fst snd] in Hr1, He1.
  set (n1 := Z.max (fexp F32.prec F32.emax (Zdigits2 M + e) - e) 0) in *.
  set (m1 := round_nearest_even (shr_m r1) (loc_of_shr_record r1)).
  assert (Hm1 : 0 <= m1 <= 32767 * 2 ^ (- e1)).
  { apply (round_nearest_even_le M n1 r1); [done|lia|done|].
    rewrite <- Z.mul_assoc, <- Z.pow_add_r by lia.
    replace (- e1 + n1) with (- e) by lia. done. }
  assert (He1' : e1 <= -9) by lia.
  destruct (shr_fexp_exact m1 e1 (proj1 Hm1)) as [[Hr2 _] He2].
  pose proof (shr_fexp_exponent m1 e1 (proj1 Hm1) He1' (proj2 Hm1)) as Hle2.
  destruct (shr_fexp F32.prec F32.emax m1 e1 loc_Exact) as [r2 e2].
  cbn [fst snd] in Hr2, He2.
  set (n2 := Z.max (fexp F32.prec F32.emax (Zdigits2 m1 + e1) - e1) 0) in *.
  assert (Hm2 : 0 <= shr_m r2 <= 32767 * 2 ^ (- e2)).
  { rewrite Hr2.
    assert (0 < 2 ^ n2) by (apply Z.pow_pos_nonneg; lia).
    split; [apply Z.div_pos; lia|].
    apply Z.div_le_upper_bound; [lia|].
    rewrite (Z.mul_comm (2 ^ n2)), <- Z.mul_assoc, <- Z.pow_add_r by lia.
    replace (- e2 + n2) with (- e1) by lia. lia. }
  destruct (shr_m r2) as [|m|m]; [by exists 0| |lia].
  replace (e2 <=? F32.emax - F32.prec) with true
    by (symmetry; apply Z.leb_le; unfold F32.emax, F32.prec; lia).
  eexists. split; [reflexivity|].
  assert (Hshift : 0 <= Z.shiftl (Z.pos m) e2 <= 32767).
  { rewrite <- (Z.opp_involutive e2), Z.shiftl_opp_r.
    rewrite Z.shiftr_div_pow2 by lia.
    assert (0 < 2 ^ (- e2)) by (apply Z.pow_pos_nonneg; lia).
    split; [apply Z.div_pos; lia|].
    apply Z.div_le_upper_bound; lia. }
  destruct sx; cbn [cond_Zopp]; lia.
Qed.

Lemma f32_one : F32.one = S754_finite false 8388608 (-23).
Proof. reflexivity. Qed.

Lemma f32_minus_one : F32.minus_one = S754_finite true 8388608 (-23).
Proof. reflexivity. Qed.

Lemma f32_32767 : F32.of_Z 32767 = S754_finite false 16776704 (-9).
Proof. reflexivity. Qed.

(** A valid float32 between -1 and 1 has a mantissa of at most 2^-e. *)
Lemma unit_range_mantissa sx mx ex :
  F32.valid (S754_finite sx mx ex) = true ->
  F32.leb F32.minus_one (S754_finite sx mx ex) = true ->
  F32.leb (S754_finite sx mx ex) F32.one = true ->
  ex <= -23 /\ Z.pos mx <= 2 ^ (- ex).
Proof.
  intros Hvalid Hlo Hhi.
  assert (Hcmp : match ex ?= -23 with
                 | Lt => True
                 | Eq => (mx <= 8388608)%positive
                 | Gt => False
                 end).
  { destruct sx.
    - clear Hhi. rewrite f32_minus_one in Hlo.
      unfold F32.leb, SFleb in Hlo. cbn [SFcompare] in Hlo.
      rewrite Pos.compare_cont_spec, (Pos.compare_antisym mx 8388608),
        (Z.compare_antisym ex (-23)) in Hlo.
      unfold Pos.le.
      destruct (ex ?= -23); [|done|done].
      by destruct (mx ?= 8388608)%positive.
    - clear Hlo. rewrite f32_one in Hhi.
      unfold F32.leb, SFleb in Hhi. cbn [SFcompare] in Hhi.
      rewrite Pos.compare_cont_spec in Hhi.
      unfold Pos.le.
      destruct (ex ?= -23); [|done|done].
      by destruct (mx ?= 8388608)%positive. }
  destruct (Z.compare_spec ex (-23)) as [->|Hlt|Hgt]; [|clear Hcmp|done].
  - clear Hvalid Hlo Hhi.
    split; [done|]. change (2 ^ (- -23)) with (Z.pos 8388608).
    exact Hcmp.
  - split; [lia|].
    unfold F32.valid, valid_binary, bounded, canonical_mantissa in Hvalid.
    apply andb_prop in Hvalid as [Hcanon _]. apply Z.eqb_eq in Hcanon.
    unfold fexp, emin, F32.prec, F32.emax in Hcanon.
    pose proof (digits2_pos_lower mx) as Hd.
    assert (Hdig : Z.pos (digits2_pos mx) <= 24) by lia.
    assert (Hpow1 : 2 ^ (Z.pos (digits2_pos mx) - 1) < 2 ^ 24)
      by (apply Z.pow_lt_mono_r; lia).
    assert (Hpow2 : 2 ^ 24 <= 2 ^ (- ex)) by (apply Z.pow_le_mono_r; lia).
    assert (Hup : Z.pos mx < 2 ^ Z.pos (digits2_pos mx)).
    { clear. induction mx as [p IH|p IH|]; cbn [digits2_pos]; [| |done].
      all: rewrite Pos2Z.inj_succ, Z.pow_succ_r by lia; lia. }
    assert (2 ^ Z.pos (digits2_pos mx) <= 2 ^ 24)
      by (apply Z.pow_le_mono_r; lia).
    lia.
Qed.

Lemma wrap_int16_small z : -32768 <= z <= 32767 -> wrap_int16 z = z.
Proof.
  intros H. unfold wrap_int16. rewrite Z.mod_small; lia.
Qed.

Lemma astype_int16_small x z :
  F32.trunc x = Some z -> -32768 <= z <= 32767 -> astype_int16 x = z.
Proof.
  intros Hz Hr. unfold astype_int16. rewrite Hz.
  replace ((-2147483648 <=? z) && (z <=? 2147483647)) with true
    by (symmetry; apply andb_true_intro; split; apply Z.leb_le; lia).
  by apply wrap_int16_small.
Qed.

(** C9: for a float32 sample between -1 and 1 the product with 32767 is
    finite, its integer part lies between -32767 and 32767, and the int16
    conversion returns that integer part: nothing wraps around. *)
Theorem C9_pcm_sample_in_range (s : sample) :
  F32.valid s = true ->
  F32.leb F32.minus_one s = true ->
  F32.leb s F32.one = true ->
  exists z,
    F32.trunc (F32.mul s (F32.of_Z 32767)) = Some z
    /\ -32767 <= z <= 32767
    /\ pcm_sample s = z.
Proof.
  intros Hvalid Hlo Hhi.
  enough (H : exists z, F32.trunc (F32.mul s (F32.of_Z 32767)) = Some z
                        /\ -32767 <= z <= 32767).
  { destruct H as (z & Hz & Hrange). exists z. split; [done|]. split; [done|].
    unfold pcm_sample. apply astype_int16_small; [done|lia]. }
  destruct s as [sx|sx| |sx mx ex].
  - exists 0. by cbn.
  - rewrite f32_minus_one in Hlo. rewrite f32_one in Hhi.
    destruct sx; [by cbn in Hlo|by cbn in Hhi].
  - rewrite f32_one in Hhi. by cbn in Hhi.
  - destruct (unit_range_mantissa sx mx ex Hvalid Hlo Hhi) as [Hex Hmx].
    rewrite f32_32767. unfold F32.mul. cbn [SFmul].
    apply binary_round_aux_bound; [lia|lia|].
    rewrite Pos2Z.inj_mul.
    replace (- (ex + -9)) with (- ex + 9) by lia.
    rewrite Z.pow_add_r by lia. change (2 ^ 9) with 512. lia.
Qed.

Lemma C9_pcm_sample_in_range_witness :
  F32.valid F32.minus_one = true
  /\ F32.leb F32.minus_one F32.minus_one = true
  /\ F32.leb F32.minus_one F32.one = true
  /\ exists z,
       F32.trunc (F32.mul F32.minus_one (F32.of_Z 32767)) = Some z
       /\ -32767 <= z <= 32767
       /\ pcm_sample F32.minus_one = z.
Proof.
  assert (H1 : F32.valid F32.minus_one = true) by reflexivity.
  assert (H2 : F32.leb F32.minus_one F32.minus_one = true) by reflexivity.
  assert (H3 : F32.leb F32.minus_one F32.one = true) by reflexivity.
  split; [exact H1|]. split; [exact H2|]. split; [exact H3|].
  exact (C9_pcm_sample_in_range F32.minus_one H1 H2 H3).
Defined.

(** 1.0, -1.0, 0.5 and -0.5 are converted to 32767, -32767, 16383 and
    -16383; outside the range, 2.0 is not converted to 65534. *)
Example pcm_sample_values :
  map pcm_sample
      [F32.one; F32.minus_one;
       S754_finite false 8388608 (-24); S754_finite true 8388608 (-24);
       F32.of_Z 2]
  = [32767; -32767; 16383; -16383; -2].
Proof. reflexivity. Qed.

(** Outside the unit range: 2.0 becomes 65534 and wraps around to -2; the
    product of 70000.0 does not fit 32 bits and becomes 0, like the infinities
    and NaN. *)
Example pcm_sample_out_of_range :
  map pcm_sample
      [F32.of_Z 2; F32.of_Z 70000; S754_infinity false; S754_infinity true;
       S754_nan]
  = [-2; 0; 0; 0; 0].
Proof. reflexivity. Qed.

(** * Further properties *)

(** ** What a step does to the store and the log *)

(** A relation between the states before and after that every step keeps
    holds along every schedule. *)
Lemma run_preorder (I : system -> Prop) (R : system -> system -> Prop) :
  (forall s, R s s) ->
  (forall s1 s2 s3, R s1 s2 -> R s2 s3 -> R s1 s3) ->
  (forall a s, I s -> I (step a s).1 /\ R s (step a s).1) ->
  forall acts s, I s -> I (run acts s).1 /\ R s (run acts s).1.
Proof.
  intros Hrefl Htrans Hstep acts.
  induction acts as [|a acts IH]; intros s Hs; cbn [run].
  - by split.
  - destruct (Hstep a s Hs) as [H1 HR1].
    destruct (step a s) as [s1 o1]. cbn [fst] in *.
    destruct (IH s1 H1) as [H2 HR2].
    destruct (run acts s1) as [s2 o2]. cbn [fst] in *.
    split; [done|]. by apply (Htrans s s1 s2).
Qed.

(** A step leaves the store alone and only adds to the log, or it is a
    step of the consumer that detected a text: then the store gets its line
    and the log its record. *)
Lemma step_store a s :
  (last_lines (shared (step a s).1) = last_lines (shared s)
   /\ log (shared s) `prefix_of` log (shared (step a s).1))
  \/ exists e r,
       a = Consume e /\ ~ whitespace_only r
       /\ last_lines (shared (step a s).1)
          = lines_append (strip r, time_time e) (last_lines (shared s))
       /\ log (shared (step a s).1)
          = log (shared s) ++ [LogInfo ("Detected: " +:+ strip r)].
Proof.
  destruct a as [indata status|e| |c].
  - left. cbn [step]. rewrite audio_callback_spec. cbn.
    split; [done|]. destruct (status_truthy status); [|done].
    by apply prefix_app_r.
  - cbn [step]. destruct (process_audio s) as [buffer|x]; [|by left].
    unfold process_audio_iteration.
    destruct (audio_queue (shared s)) as [|indata q]; [by left|].
    destruct (threshold_reached (buffer ++ reshape_flat indata)) eqn:Ht.
    + destruct (loop_body_reached e buffer indata
                  (set_audio_queue q (shared s)) Ht) as (w' & -> & Hout).
      cbn [fst shared].
      destruct Hout as [r Hw Hr Hs Hw'|r Hw Hr Hs Hw'|x Hw Hw'|x file Hw Hw'
                       |x Hw Hr Hw'];
        subst w'; cbn.
      * right. exists e, r. split; [done|]. split; [|done].
        rewrite <- str_truthy_strip. by rewrite Hs.
      * by left.
      * left. split; [done|]. by apply prefix_app_r.
      * left. split; [done|]. by apply prefix_app_r.
      * left. split; [done|]. by apply prefix_app_r.
    + rewrite loop_body_below by done. by left.
  - by left.
  - left. rewrite step_poll_spec.
    by destruct (connections s !! c) as [prev|]; [destruct (bool_decide _)|].
Qed.

(** ** Which texts become lines *)

(** X3: when the wav file is written and the engine returns a text, a line
    is appended, and "Detected" is logged, exactly when the text has a
    character that is not white space; the line holds the text without the
    white space characters, whichever of Unicode, at its beginning and at
    its end, and the reading of the clock. *)
Theorem line_appended_iff_not_blank
    (e : env) (pcm : list Z) (w : world) (text : list N) :
  Forall code_point text ->
  wave_write e pcm = None ->
  transcribe e (Some pcm) = Return (str_of_code_points text) ->
  let w' := (try_except (try_body e pcm) except_handler w).2 in
  let stripped := str_of_code_points (strip_code_points text) in
  if forallb isspace text
  then last_lines w' = last_lines w /\ log w' = log w
  else last_lines w' = lines_append (stripped, time_time e) (last_lines w)
       /\ log w' = log w ++ [LogInfo ("Detected: " +:+ stripped)].
Proof.
  intros Htext Hw Hr w' stripped.
  pose proof (whitespace_only_code_points text Htext) as Hblank.
  rewrite <- str_truthy_strip in Hblank.
  unfold stripped. rewrite <- strip_code_points_spec by done.
  destruct (try_except_outcome e pcm w) as (w1 & Heq & Hout).
  unfold w'. rewrite Heq. cbn [snd].
  destruct Hout as [r Hw1 Hr1 Hs ->|r Hw1 Hr1 Hs ->|x Hw1 ->|x file Hw1 ->
                   |x Hw1 Hr1 ->];
    try congruence.
  - assert (r = str_of_code_points text) as -> by congruence.
    destruct (forallb isspace text); [|done].
    rewrite (proj2 Hblank) in Hs; done.
  - assert (r = str_of_code_points text) as -> by congruence.
    apply Hblank in Hs. by rewrite Hs.
Qed.

Lemma line_appended_iff_not_blank_witness :
  let text := [0x3000; 0x68; 0x69; 0x2192; 0x20]%N in
  let e := stub (str_of_code_points text) 9 in
  let w' := (try_except (try_body e [0; 1]) except_handler initial_world).2 in
  Forall code_point text
  /\ wave_write e [0; 1] = None
  /\ transcribe e (Some [0; 1]) = Return (str_of_code_points text)
  /\ last_lines w' = [("hi→"%string, 9)]
  /\ log w' = log initial_world ++ [LogInfo "Detected: hi→"].
Proof.
  intros text e w'.
  assert (H1 : Forall code_point text) by (repeat constructor).
  assert (H2 : wave_write e [0; 1] = None) by reflexivity.
  assert (H3 : transcribe e (Some [0; 1]) = Return (str_of_code_points text))
    by reflexivity.
  split; [exact H1|]. split; [exact H2|]. split; [exact H3|].
  exact (line_appended_iff_not_blank e [0; 1] initial_world text H1 H2 H3).
Defined.

Lemma Forall_most_recent {A} (P : A -> Prop) k ls :
  Forall P ls -> Forall P (most_recent k ls).
Proof. unfold most_recent. apply Forall_drop. Qed.

Lemma Forall_lines_append (P : line -> Prop) l ls :
  P l -> Forall P ls -> Forall P (lines_append l ls).
Proof.
  intros Hl Hls. rewrite lines_append_most_recent.
  apply Forall_most_recent, Forall_app. by repeat constructor.
Qed.

(** X4: under every schedule, whatever texts the engine returns, every
    text in the store is non-empty and neither begins nor ends with a white
    space character of Unicode. *)
Theorem stored_texts_are_trimmed (acts : list action) :
  Forall (fun l : line => trimmed l.1)
         (last_lines (shared (run acts initial_system).1)).
Proof.
  apply (run_invariant
           (fun s _ => Forall (fun l : line => trimmed l.1)
                              (last_lines (shared s)))); [by constructor|].
  intros a s _ Hs.
  destruct (step_store a s) as [[-> _]|(e & r & _ & Hr & -> & _)]; [done|].
  apply Forall_lines_append; [|done]. by apply strip_trimmed.
Qed.

(** ** The store only grows *)

Lemma lines_append_length l ls :
  len ls <= MAX_LINES -> len ls <= len (lines_append l ls).
Proof.
  rewrite lines_append_most_recent. unfold len, MAX_LINES.
  rewrite length_most_recent, length_app. cbn. lia.
Qed.

Lemma store_grows_along acts1 acts2 :
  len (last_lines (shared (run acts1 initial_system).1))
  <= len (last_lines (shared (run (acts1 ++ acts2) initial_system).1)).
Proof.
  rewrite run_app_state.
  apply (run_preorder
           (fun s => len (last_lines (shared s)) <= MAX_LINES)
           (fun s s' => len (last_lines (shared s))
                        <= len (last_lines (shared s'))));
    [done| |intros a s Hs|apply store_inv_run].
  - intros s1 s2 s3 H12 H23. lia.
  - destruct (step_store a s) as [[-> _]|(e & r & _ & _ & -> & _)]; [done|].
    split; [apply lines_append_len|]. by apply lines_append_length.
Qed.


(** X7: under every schedule each line in the store has its "Detected" record
    in the log. *)
Theorem stored_lines_are_logged (acts : list action) :
  let w := shared (run acts initial_system).1 in
  Forall (fun l : line => LogInfo ("Detected: " +:+ l.1) ∈ log w)
         (last_lines w).
Proof.
  apply (run_invariant
           (fun s _ => Forall (fun l : line =>
                                 LogInfo ("Detected: " +:+ l.1)
                                 ∈ log (shared s))
                              (last_lines (shared s)))); [by constructor|].
  intros a s _ Hs.
  destruct (step_store a s) as [[-> [k ->]]|(e & r & _ & Hr & -> & ->)].
  - eapply Forall_impl; [|exact Hs]. intros l Hl. cbn in Hl.
    apply elem_of_app. by left.
  - apply Forall_lines_append.
    + apply elem_of_app. right. by constructor.
    + eapply Forall_impl; [|exact Hs]. intros l Hl. cbn in Hl.
      apply elem_of_app. by left.
Qed.

(** ** The time stamps of the store *)

Lemma sorted_lines_append text te ls :
  StronglySorted Z.le (map snd ls) ->
  Forall (fun t => t <= te) (map snd ls) ->
  StronglySorted Z.le (map snd (lines_append (text, te) ls))
  /\ Forall (fun t => t ∈ map snd ls \/ t = te)
            (map snd (lines_append (text, te) ls)).
Proof.
  intros Hs Hle. rewrite lines_append_most_recent. unfold most_recent.
  rewrite <- skipn_map, map_app. cbn [map snd].
  assert (Hall : StronglySorted Z.le (map snd ls ++ [te])).
  { apply StronglySorted_app. split; [|split; [done|repeat constructor]].
    intros t1 t2 H1 H2. apply list_elem_of_singleton in H2 as ->.
    apply list_elem_of_In in H1. rewrite Forall_forall in Hle.
    by apply Hle. }
  split.
  - rewrite <- (take_drop (length (ls ++ [(text, te)]) - Z.to_nat MAX_LINES)
                          (map snd ls ++ [te])) in Hall.
    by apply StronglySorted_app_1_r in Hall.
  - apply Forall_drop, Forall_app. split.
    + apply Forall_forall. intros t Ht. left. by apply list_elem_of_In.
    + constructor; [by right|constructor].
Qed.

Lemma timestamps_sorted_from acts s :
  StronglySorted Z.le (clock_readings acts) ->
  StronglySorted Z.le (map snd (last_lines (shared s))) ->
  Forall (fun t => Forall (fun c => t <= c) (clock_readings acts))
         (map snd (last_lines (shared s))) ->
  StronglySorted Z.le (map snd (last_lines (shared (run acts s).1))).
Proof.
  revert s. induction acts as [|a acts IH]; intros s Hc Hs Hle; [done|].
  cbn [run]. destruct (step a s) as [s1 o1] eqn:Hstep.
  pose proof (step_store a s) as Hst. rewrite Hstep in Hst. cbn [fst] in Hst.
  specialize (IH s1). destruct (run acts s1) as [s2 o2]. cbn [fst] in *.
  apply IH; clear IH;
    destruct Hst as [[Heq _]|(e & r & -> & _ & Heq & _)]; rewrite ?Heq.
  - destruct a; cbn in Hc; try done. by inversion Hc.
  - cbn in Hc. by inversion Hc.
  - done.
  - apply sorted_lines_append; [done|].
    eapply Forall_impl; [|exact Hle]. intros t Ht. cbn in Ht.
    by inversion Ht.
  - eapply Forall_impl; [|exact Hle]. intros t Ht. cbn in Ht.
    destruct a; cbn in Ht; try done. by inversion Ht.
  - cbn in Hc, Hle. inversion Hc as [|te cs Hcs Hte]; subst.
    destruct (sorted_lines_append (strip r) (time_time e)
                (last_lines (shared s)) Hs) as [_ Hin].
    { eapply Forall_impl; [|exact Hle]. intros t Ht. cbn in Ht.
      by inversion Ht. }
    eapply Forall_impl; [|exact Hin]. intros t [Ht| ->]; cbn.
    + apply list_elem_of_In in Ht. rewrite Forall_forall in Hle.
      specialize (Hle t Ht). by inversion Hle.
    + done.
Qed.

(** X6: when the clock never goes back from one iteration of the consumer to
    the next, the time stamps of the stored lines are in ascending order. *)
Theorem stored_timestamps_ascend (acts : list action) :
  StronglySorted Z.le (clock_readings acts) ->
  StronglySorted Z.le
    (map snd (last_lines (shared (run acts initial_system).1))).
Proof.
  intros Hc. apply timestamps_sorted_from; [done|constructor|constructor].
Qed.

Lemma stored_timestamps_ascend_witness :
  StronglySorted Z.le (clock_readings four_segments)
  /\ StronglySorted Z.le
       (map snd (last_lines (shared (run four_segments initial_system).1))).
Proof.
  assert (H : StronglySorted Z.le (clock_readings four_segments)).
  { cbn. repeat constructor; lia. }
  split; [exact H|]. exact (stored_timestamps_ascend four_segments H).
Defined.

(** ** The queue and the buffer *)

Lemma run_invariant_on (Q : action -> Prop) (P : system -> list obs -> Prop)
    (s0 : system) :
  P s0 [] ->
  (forall a s tr, Q a -> P s tr -> P (step a s).1 (tr ++ (step a s).2)) ->
  forall acts, Forall Q acts -> P (run acts s0).1 (run acts s0).2.
Proof.
  intros H0 Hstep acts Hacts.
  enough (H : forall s tr, P s tr -> P (run acts s).1 (tr ++ (run acts s).2))
    by exact (H s0 [] H0).
  induction Hacts as [|a acts Ha _ IH]; intros s tr HP; cbn [run].
  - by rewrite app_nil_r.
  - specialize (Hstep a s tr Ha HP).
    destruct (step a s) as [s1 o1]. cbn [fst snd] in Hstep.
    specialize (IH s1 (tr ++ o1) Hstep).
    destruct (run acts s1) as [s2 o2]. cbn [fst snd] in *.
    by rewrite app_assoc.
Qed.

Lemma step_pipeline_move a s : pipeline_move a s (step a s).1 (step a s).2.
Proof.
  destruct a as [indata status|e| |c].
  - cbn [step]. rewrite audio_callback_spec. by eapply MoveCapture.
  - destruct (process_audio s) as [buffer|x] eqn:Hp.
    2:{ cbn [step]. rewrite Hp. by apply MoveNone. }
    destruct (audio_queue (shared s)) as [|indata q] eqn:Hq.
    { cbn [step]. unfold process_audio_iteration. rewrite Hp, Hq.
      by apply MoveNone. }
    destruct (threshold_reached (buffer ++ reshape_flat indata)) eqn:Ht.
    + destruct (step_consume_reached s buffer indata q e Hp Hq Ht)
        as (w' & -> & Hout).
      eapply MoveSegment; try done; cbn.
      by apply segment_outcome_queue in Hout.
    + rewrite (step_consume_below s buffer indata q e Hp Hq Ht).
      by eapply MoveBelow.
  - by apply MoveNone.
  - rewrite step_poll_spec.
    destruct (connections s !! c) as [prev|];
      [destruct (bool_decide _)|]; by apply MoveNone.
Qed.

(** X1: under every schedule the queue is first in, first out: the
    captured blocks are the blocks already taken by the consumer, in the
    order of capture, followed by the queue; and the samples of the blocks
    taken are the emitted segments followed by the buffer. *)
Theorem queue_is_fifo (acts : list action) :
  let s := (run acts initial_system).1 in
  let tr := (run acts initial_system).2 in
  exists consumed buffer,
    process_audio s = Running buffer
    /\ captured tr = consumed ++ audio_queue (shared s)
    /\ concat (segments tr) ++ buffer = samples_of_blocks consumed.
Proof.
  apply (run_invariant fifo_inv); [by exists [], []|].
  intros a s tr (consumed & buffer & Hp & Hc & Hs).
  unfold fifo_inv. rewrite captured_app, segments_app.
  destruct (step_pipeline_move a s)
    as [indata status _ Hp' Hq' -> ->|Hp' Hq' -> ->
       |b indata q Hb Hq Ht Hp' Hq' -> ->
       |b indata q Hb Hq Ht Hp' Hq' -> ->];
    rewrite Hp', Hq', ?app_nil_r.
  - exists consumed, buffer. rewrite Hc. by rewrite app_assoc.
  - by exists consumed, buffer.
  - assert (b = buffer) as -> by congruence.
    exists (consumed ++ [indata]), (buffer ++ reshape_flat indata).
    rewrite Hc, Hq, <- app_assoc. split; [done|]. split; [done|].
    rewrite samples_of_blocks_app, <- Hs, app_assoc.
    f_equal. unfold samples_of_blocks. cbn. by rewrite app_nil_r.
  - assert (b = buffer) as -> by congruence.
    exists (consumed ++ [indata]), [].
    rewrite Hc, Hq, <- app_assoc. split; [done|]. split; [done|].
    rewrite samples_of_blocks_app, <- Hs, concat_app, app_nil_r. cbn.
    rewrite app_nil_r, <- app_assoc.
    f_equal. f_equal. unfold samples_of_blocks. cbn. by rewrite app_nil_r.
Qed.

Lemma device_block_samples indata :
  device_block indata -> len (reshape_flat indata) = BLOCKSIZE.
Proof.
  intros [Hlen Hrows]. rewrite <- Hlen. unfold len, reshape_flat. f_equal.
  clear Hlen. induction Hrows as [|row rows Hrow _ IH]; [done|].
  cbn. rewrite length_app, IH, Hrow. done.
Qed.

Lemma blocks_inv_step a s tr :
  from_device a ->
  blocks_inv s tr -> blocks_inv (step a s).1 (tr ++ (step a s).2).
Proof.
  intros Ha (buffer & k & Hp & Hlen & Hk & Hqueue & Hsegs & Hcount).
  unfold blocks_inv. rewrite captured_app, segments_app, !len_app.
  destruct (step_pipeline_move a s)
    as [indata status -> Hp' Hq' -> ->|Hp' Hq' -> ->
       |b indata q Hb Hq Ht Hp' Hq' -> ->
       |b indata q Hb Hq Ht Hp' Hq' -> ->];
    rewrite Hp', Hq', ?app_nil_r.
  - exists buffer, k. rewrite len_app.
    split; [done|]. split; [done|]. split; [done|]. split.
    + apply Forall_app. split; [done|]. constructor; [exact Ha|constructor].
    + split; [done|]. unfold len in *. cbn. lia.
  - exists buffer, k.
    split; [done|]. split; [done|]. split; [done|]. split; [done|].
    split; [done|]. unfold len in *. cbn. lia.
  - assert (b = buffer) as -> by congruence.
    rewrite Hq in Hqueue, Hcount. apply Forall_cons_1 in Hqueue as [Hd Hqueue].
    apply device_block_samples in Hd.
    apply threshold_reached_false in Ht. rewrite len_app, Hd, Hlen in Ht.
    unfold SAMPLE_RATE, BLOCKSIZE in *.
    exists (buffer ++ reshape_flat indata), (k + 1).
    rewrite len_app, Hd, Hlen.
    split; [done|]. split; [lia|]. split; [lia|].
    split; [done|]. split; [done|]. unfold len in *. cbn in *. lia.
  - assert (b = buffer) as -> by congruence.
    rewrite Hq in Hqueue, Hcount. apply Forall_cons_1 in Hqueue as [Hd Hqueue].
    apply device_block_samples in Hd.
    apply threshold_reached_true in Ht. rewrite len_app, Hd, Hlen in Ht.
    unfold SAMPLE_RATE, BLOCKSIZE in *.
    exists [], 0. split; [done|]. split; [done|]. split; [lia|].
    split; [done|]. split.
    + apply Forall_app. split; [done|]. repeat constructor.
      rewrite len_app, Hd, Hlen. lia.
    + unfold len in *. cbn in *. lia.
Qed.

(** X2: with blocks as the device delivers them (BLOCKSIZE rows of one
    sample), every segment has exactly 12 * BLOCKSIZE = 24576 samples, the
    buffer holds a whole number of blocks, fewer than twelve, and there is
    one segment for every twelve blocks taken from the queue. *)
Theorem device_blocks_give_segments_of_twelve (acts : list action) :
  Forall from_device acts ->
  let s := (run acts initial_system).1 in
  let tr := (run acts initial_system).2 in
  Forall (fun seg => len seg = 24576) (segments tr)
  /\ exists buffer k,
       process_audio s = Running buffer
       /\ len buffer = 2048 * k /\ 0 <= k < 12
       /\ len (captured tr)
          = len (audio_queue (shared s)) + 12 * len (segments tr) + k.
Proof.
  intros Hacts s tr.
  destruct (run_invariant_on from_device blocks_inv initial_system)
    with (acts := acts)
    as (buffer & k & Hp & Hlen & Hk & _ & Hsegs & Hcount);
    [|apply blocks_inv_step|done|].
  { exists [], 0. cbn. repeat split; try done; constructor. }
  split; [done|]. by exists buffer, k.
Qed.

Lemma device_block_silence : device_block (silence BLOCKSIZE).
Proof.
  split; [by vm_compute|]. unfold silence. by apply Forall_replicate.
Qed.

Lemma device_blocks_give_segments_of_twelve_witness :
  Forall from_device thirteen_blocks
  /\ Forall (fun seg => len seg = 24576)
            (segments (run thirteen_blocks initial_system).2).
Proof.
  assert (H : Forall from_device thirteen_blocks).
  { unfold thirteen_blocks. apply Forall_app. split.
    - apply Forall_replicate. exact device_block_silence.
    - by apply Forall_replicate. }
  split; [exact H|].
  exact (proj1 (device_blocks_give_segments_of_twelve thirteen_blocks H)).
Defined.

(** ** The wav file *)

(** X9: the engine is asked about the file that holds the PCM data of the
    current segment and about nothing else: what the try block returns and
    what it does to the store, the log and the queue depends neither on what
    the file held before the segment nor on what the engine would make of
    any other file.  After the block the file holds the PCM data of the
    segment when it was written, what it held before when [wave.open]
    raised, and otherwise what the failed write left. *)
Theorem engine_is_given_the_segment
    (e e' : env) (pcm : list Z) (w : world) (old : option (list Z)) :
  wave_write e' pcm = wave_write e pcm ->
  transcribe e' (Some pcm) = transcribe e (Some pcm) ->
  time_time e' = time_time e ->
  let r := try_except (try_body e pcm) except_handler w in
  let r' := try_except (try_body e' pcm) except_handler (set_temp_file old w) in
  r'.1 = r.1
  /\ last_lines r'.2 = last_lines r.2
  /\ log r'.2 = log r.2
  /\ audio_queue r'.2 = audio_queue r.2
  /\ temp_file r.2
     = match wave_write e pcm with
       | None => Some pcm
       | Some (OpenRaised _) => temp_file w
       | Some (WriteRaised _ file) => file
       end
  /\ temp_file r'.2
     = match wave_write e pcm with
       | None => Some pcm
       | Some (OpenRaised _) => old
       | Some (WriteRaised _ file) => file
       end.
Proof.
  intros Hw Hr Ht r r'. unfold r, r'. unfold_M. rewrite Hw.
  destruct (wave_write e pcm) as [[x|x file]|]; cbn; [done|done|].
  rewrite Hr. destruct (transcribe e (Some pcm)) as [text|x]; cbn; [|done].
  rewrite Ht. by destruct (str_truthy (strip text)).
Qed.

Lemma engine_is_given_the_segment_witness :
  let e := Env (fun _ => None)
               (fun f => if decide (f = Some [0; 1])
                         then Return "hi"%string
                         else Raise (Exception "no audio")) 5 in
  let e' := stub "hi" 5 in
  wave_write e' [0; 1] = wave_write e [0; 1]
  /\ transcribe e' (Some [0; 1]) = transcribe e (Some [0; 1])
  /\ time_time e' = time_time e
  /\ last_lines (try_except (try_body e' [0; 1]) except_handler
                   (set_temp_file (Some [7; 7; 7]) initial_world)).2
     = last_lines (try_except (try_body e [0; 1]) except_handler
                     initial_world).2.
Proof.
  intros e e'.
  assert (H1 : wave_write e' [0; 1] = wave_write e [0; 1]) by reflexivity.
  assert (H2 : transcribe e' (Some [0; 1]) = transcribe e (Some [0; 1]))
    by reflexivity.
  assert (H3 : time_time e' = time_time e) by reflexivity.
  split; [exact H1|]. split; [exact H2|]. split; [exact H3|].
  exact (proj1 (proj2 (engine_is_given_the_segment e e' [0; 1] initial_world
                         (Some [7; 7; 7]) H1 H2 H3))).
Defined.

(** When [wave.open] raises, the file of the segment before is still
    there, and the engine is not asked about it. *)
Example failed_open_keeps_older_file :
  let e := Env (fun _ => Some (OpenRaised (Exception "denied")))
               (fun _ => Return "stale"%string) 5 in
  let r := try_except (try_body e [0; 1]) except_handler
             (set_temp_file (Some [7; 7; 7]) initial_world) in
  temp_file r.2 = Some [7; 7; 7]
  /\ last_lines r.2 = []
  /\ list.last (log r.2)
     = Some (LogError "Whisper error: %s" (Exception "denied")).
Proof. vm_compute. repeat split; reflexivity. Qed.

(** ** The events of a connection *)

Lemma adjacent_distinct_snoc l ev :
  adjacent_distinct l -> list.last l <> Some ev ->
  adjacent_distinct (l ++ [ev]).
Proof.
  induction l as [|ev1 [|ev2 l] IH]; intros Hl Hlast; [done| |].
  - cbn in *. split; [congruence|done].
  - destruct Hl as [Hne Hl]. split; [done|]. by apply IH.
Qed.

(** A step sends nothing on connection [c], or it is a poll of [c] that
    found the snapshot different from [prev]. *)
Lemma step_sent a s c :
  sent c (step a s).2 = []
  \/ exists prev,
       connections s !! c = Some prev
       /\ Some (last_lines (shared s)) <> prev
       /\ sent c (step a s).2 = [event_of (last_lines (shared s))].
Proof.
  destruct a as [indata status|e| |c0].
  - left. cbn [step]. by rewrite audio_callback_spec.
  - left. cbn [step]. destruct (process_audio s) as [buffer|x]; [|done].
    by destruct (process_audio_iteration e buffer (shared s))
      as [[[[b' [seg|]]|x] w']|].
  - by left.
  - rewrite step_poll_spec.
    destruct (connections s !! c0) as [prev|] eqn:Hc0; [|by left].
    destruct (bool_decide_reflect (Some (last_lines (shared s)) ≠ prev))
      as [Hne|Heq]; [|by left].
    cbn. destruct (decide (c0 = c)) as [->|Hc]; [|by left].
    right. by exists prev.
Qed.

Lemma sent_snoc acts a c :
  sent c (run (acts ++ [a]) initial_system).2
  = sent c (run acts initial_system).2
    ++ sent c (step a (run acts initial_system).1).2.
Proof.
  rewrite run_app. destruct (run acts initial_system) as [s1 o1].
  cbn [run fst snd]. destruct (step a s1) as [s2 o2].
  cbn [fst snd]. by rewrite app_nil_r, sent_app.
Qed.

(** X11: on every connection, no event is sent twice in a row: each event
    differs from the one before it. *)
Theorem no_event_is_repeated (acts : list action) (c : nat) :
  adjacent_distinct (sent c (run acts initial_system).2).
Proof.
  induction acts as [|a acts IH] using rev_ind; [done|].
  rewrite sent_snoc.
  destruct (step_sent a (run acts initial_system).1 c)
    as [->|(prev & Hc & Hne & ->)]; [by rewrite app_nil_r|].
  apply adjacent_distinct_snoc; [done|].
  destruct (stream_inv_run acts) as [Hprev _].
  specialize (Hprev c prev Hc). unfold last_sent in Hprev. rewrite Hprev.
  destruct prev as [p|]; cbn; [|done].
  intros Heq. apply Hne. f_equal. symmetry. apply event_of_inj. congruence.
Qed.

(** X12: every event sent on a connection is the snapshot of the store at some
    moment of the schedule, and so has at most MAX_LINES entries. *)
Theorem events_are_snapshots (acts : list action) (c : nat) :
  Forall (fun ev =>
            exists acts1 acts2,
              acts = acts1 ++ acts2
              /\ ev = event_of
                        (last_lines (shared (run acts1 initial_system).1))
              /\ len (last_lines (shared (run acts1 initial_system).1))
                 <= MAX_LINES)
         (sent c (run acts initial_system).2).
Proof.
  induction acts as [|a acts IH] using rev_ind; [by constructor|].
  rewrite sent_snoc. apply Forall_app. split.
  - eapply Forall_impl; [|exact IH].
    intros ev (acts1 & acts2 & -> & Hev & Hlen). cbn.
    exists acts1, (acts2 ++ [a]). by rewrite app_assoc.
  - destruct (step_sent a (run acts initial_system).1 c)
      as [->|(prev & _ & _ & ->)]; [constructor|].
    constructor; [|constructor].
    exists acts, [a]. split; [done|]. split; [done|]. apply store_inv_run.
Qed.

(** X18: a poll brings the viewer up to date: after a poll of an open
    connection, the last event sent on it is the snapshot of the store as it
    is then. *)
Theorem poll_brings_viewer_up_to_date (acts : list action) (c : nat) :
  (c < length (connections (run acts initial_system).1))%nat ->
  let r := run (acts ++ [Poll c]) initial_system in
  last_sent c r.2 = Some (event_of (last_lines (shared r.1))).
Proof.
  intros Hc r.
  destruct (lookup_lt_is_Some_2 _ _ Hc) as [prev Hprev].
  destruct (stream_inv_run (acts ++ [Poll c])) as [Hinv _]. fold r in Hinv.
  assert (Hr : r.1 = (step (Poll c) (run acts initial_system).1).1).
  { unfold r. rewrite run_app_state. cbn [run].
    by destruct (step (Poll c) (run acts initial_system).1). }
  rewrite Hr in Hinv |- *. rewrite step_poll_spec, Hprev in Hinv |- *.
  destruct (bool_decide_reflect
              (Some (last_lines (shared (run acts initial_system).1)) ≠ prev))
    as [Hne|Heq]; cbn [fst shared connections] in Hinv |- *.
  - apply (Hinv c (Some (last_lines (shared (run acts initial_system).1)))).
    by apply list_lookup_insert_eq.
  - apply (Hinv c (Some (last_lines (shared (run acts initial_system).1)))).
    rewrite Hprev. f_equal. symmetry. by apply dec_stable.
Qed.

Lemma poll_brings_viewer_up_to_date_witness :
  (0 < length (connections (run one_line_then_poll initial_system).1))%nat
  /\ last_sent 0 (run (one_line_then_poll ++ [Poll 0]) initial_system).2
     = Some (event_of
               (last_lines
                  (shared (run (one_line_then_poll ++ [Poll 0])
                             initial_system).1))).
Proof.
  assert (H : (0 < length (connections
                            (run one_line_then_poll initial_system).1))%nat)
    by (vm_compute; lia).
  split; [exact H|].
  exact (poll_brings_viewer_up_to_date one_line_then_poll 0 H).
Defined.

(** ** The viewers and the pipeline *)

Lemma viewer_step a s :
  is_viewer_action a = true ->
  shared (step a s).1 = shared s
  /\ process_audio (step a s).1 = process_audio s
  /\ captured (step a s).2 = [] /\ segments (step a s).2 = [].
Proof.
  destruct a as [| | |c]; try done. intros _. rewrite step_poll_spec.
  by destruct (connections s !! c) as [prev|]; [destruct (bool_decide _)|].
Qed.

Lemma without_viewers_run acts s s' :
  shared s = shared s' -> process_audio s = process_audio s' ->
  shared (run (without_viewers acts) s').1 = shared (run acts s).1
  /\ process_audio (run (without_viewers acts) s').1
     = process_audio (run acts s).1
  /\ captured (run (without_viewers acts) s').2 = captured (run acts s).2
  /\ segments (run (without_viewers acts) s').2 = segments (run acts s).2.
Proof.
  revert s s'. induction acts as [|a acts IH]; intros s s' Hw Hp; [done|].
  destruct (is_viewer_action a) eqn:Ha.
  - unfold without_viewers. rewrite filter_cons_False by (by rewrite Ha).
    fold (without_viewers acts). cbn [run].
    destruct (viewer_step a s Ha) as (Hw' & Hp' & Hc & Hs).
    destruct (step a s) as [s1 o1]. cbn [fst snd] in *.
    destruct (IH s1 s') as (H1 & H2 & H3 & H4); [congruence..|].
    destruct (run acts s1) as [s2 o2]. cbn [fst snd] in *.
    rewrite captured_app, segments_app, Hc, Hs. done.
  - unfold without_viewers. rewrite filter_cons_True by done.
    fold (without_viewers acts). cbn [run].
    assert (Hstep : shared (step a s').1 = shared (step a s).1
                    /\ process_audio (step a s').1 = process_audio (step a s).1
                    /\ (step a s').2 = (step a s).2).
    { destruct a as [indata status|e| |c0]; try done; cbn [step].
      - rewrite Hw. by destruct (audio_callback indata status (shared s')).
      - rewrite Hw, Hp. destruct (process_audio s') as [buffer|x] eqn:Hp';
          [|cbn; by rewrite Hp'].
        destruct (process_audio_iteration e buffer (shared s'))
          as [[[[b' [seg|]]|x] w']|]; cbn; try done.
        by rewrite Hp'. }
    destruct Hstep as (Hw1 & Hp1 & Ho1).
    destruct (step a s) as [s1 o1]. destruct (step a s') as [s1' o1'].
    cbn [fst snd] in *. subst o1'.
    destruct (IH s1 s1') as (H1 & H2 & H3 & H4); [done..|].
    destruct (run acts s1) as [s2 o2].
    destruct (run (without_viewers acts) s1') as [s2' o2'].
    cbn [fst snd] in *. rewrite !captured_app, !segments_app.
    by rewrite H1, H2, H3, H4.
Qed.

(** X13: viewers cannot influence the pipeline: with all connections and polls
    removed from a schedule, the shared state, the consumer, the blocks
    captured and the segments emitted are the same. *)
Theorem viewers_do_not_influence_pipeline (acts : list action) :
  let r := run acts initial_system in
  let r' := run (without_viewers acts) initial_system in
  shared r'.1 = shared r.1
  /\ process_audio r'.1 = process_audio r.1
  /\ captured r'.2 = captured r.2
  /\ segments r'.2 = segments r.2.
Proof.
  intros r r'.
  destruct (without_viewers_run acts initial_system initial_system)
    as (Hw & Hp & Hc & Hs); [done|done|].
  by repeat split.
Qed.

(** ** The page of a viewer *)

Lemma index_spec w : index w = (Return (render_lines (last_lines w)), w).
Proof. reflexivity. Qed.

Lemma length_render_lines ls : length (render_lines ls) = length ls.
Proof. unfold render_lines. apply length_map. Qed.

Lemma js_get_line_json l :
  js_get "text" (line_json l) = Some (JString l.1)
  /\ js_get "ts" (line_json l) = Some (JNumber l.2).
Proof. by destruct l. Qed.

Lemma update_line_length i obj page :
  length (update_line i obj page) = length page.
Proof.
  unfold update_line. destruct (page !! i); [|done]. apply length_insert.
Qed.

Lemma for_each_from_length i data page :
  length (for_each_from i data page) = length page.
Proof.
  revert i page. induction data as [|obj data IH]; intros i page; [done|].
  cbn [for_each_from]. by rewrite IH, update_line_length.
Qed.

Lemma onmessage_length ev page : length (onmessage ev page) = length page.
Proof. destruct ev as [[data]]. apply for_each_from_length. Qed.

(** X14: the script never adds or removes a line element: whatever events
    arrive, the page of a viewer has as many line elements as the store had
    lines when the page was rendered, at most MAX_LINES.  A page rendered
    from the empty store has none, and shows nothing. *)
Theorem page_keeps_its_elements (acts : list action) (evs : list sse) :
  let w := shared (run acts initial_system).1 in
  exists page,
    index w = (Return page, w)
    /\ length (foldl (fun p ev => onmessage ev p) page evs)
       = length (last_lines w)
    /\ len (last_lines w) <= MAX_LINES.
Proof.
  intros w. exists (render_lines (last_lines w)).
  split; [done|]. split; [|apply store_inv_run].
  rewrite <- (length_render_lines (last_lines w)).
  generalize (render_lines (last_lines w)). intros page. revert page.
  induction evs as [|ev evs IH]; intros page; [done|].
  cbn [foldl]. by rewrite IH, onmessage_length.
Qed.

Lemma for_each_from_out i data page :
  (length page <= i)%nat -> for_each_from i data page = page.
Proof.
  revert i. induction data as [|obj data IH]; intros i Hi; [done|].
  cbn [for_each_from]. unfold update_line.
  rewrite (proj2 (lookup_ge_None page i)) by done. apply IH. lia.
Qed.

Lemma for_each_from_lines i data page :
  (i <= length page)%nat ->
  for_each_from i (map line_json data) page
  = take i page ++ render_lines (take (length page - i) data)
    ++ drop (i + length data) page.
Proof.
  revert i page. induction data as [|l data IH]; intros i page Hi.
  - cbn [map for_each_from length]. rewrite take_nil, Nat.add_0_r. cbn.
    by rewrite take_drop.
  - cbn [map for_each_from length]. unfold update_line.
    destruct (js_get_line_json l) as [-> ->].
    destruct (page !! i) as [el|] eqn:Hel.
    + pose proof (lookup_lt_Some _ _ _ Hel) as Hlt.
      rewrite IH by (rewrite length_insert; lia).
      rewrite length_insert.
      rewrite (take_S_r _ _ (Element (Some (JString l.1))
                                      (Some (JNumber l.2)) 1))
        by (by apply list_lookup_insert_eq).
      rewrite take_insert_ge by lia. rewrite drop_insert_lt by lia.
      replace (length page - i)%nat with (S (length page - S i)) by lia.
      cbn [take render_lines map]. rewrite <- app_assoc. cbn.
      replace (i + S (length data))%nat with (S (i + length data)) by lia.
      done.
    + apply lookup_ge_None in Hel.
      rewrite for_each_from_out by lia.
      replace (length page - i)%nat with 0%nat by lia.
      rewrite take_ge by lia. rewrite drop_ge by lia. cbn.
      by rewrite app_nil_r.
Qed.

(** X15: a viewer that rendered the page when the store held [k] lines and then
    receives the event of a later snapshot shows the first [k] lines of
    that snapshot, that is the oldest ones, with full opacity. *)
Theorem viewer_shows_oldest_lines (acts1 acts2 : list action) :
  let before := last_lines (shared (run acts1 initial_system).1) in
  let cur := last_lines (shared (run (acts1 ++ acts2) initial_system).1) in
  exists page,
    index (shared (run acts1 initial_system).1)
    = (Return page, shared (run acts1 initial_system).1)
    /\ onmessage (event_of cur) page
       = render_lines (take (length before) cur).
Proof.
  intros before cur. exists (render_lines before). split; [done|].
  pose proof (store_grows_along acts1 acts2) as Hle.
  fold before cur in Hle. unfold len in Hle.
  unfold event_of, lines_json, onmessage.
  rewrite for_each_from_lines by lia.
  rewrite length_render_lines, Nat.sub_0_r, drop_ge
    by (rewrite length_render_lines; lia).
  by rewrite app_nil_r.
Qed.

(** A page rendered before the first line was stored stays empty, and a
    page rendered with three lines follows the store. *)
Example page_of_empty_store_stays_empty :
  let cur := last_lines (shared (run four_segments initial_system).1) in
  onmessage (event_of cur) (render_lines []) = []
  /\ onmessage (event_of cur)
       (render_lines [("x", 0); ("y", 0); ("z", 0)]%string)
     = render_lines [("b", 2); ("c", 3); ("d", 4)]%string.
Proof. vm_compute. done. Qed.

(** ** More on the PCM conversion *)

Lemma binary_round_aux_magnitude M e :
  0 <= M -> e <= -9 -> M <= 32767 * 2 ^ (- e) ->
  exists m,
    0 <= m <= 32767
    /\ forall sx,
         F32.trunc (binary_round_aux F32.prec F32.emax sx M e loc_Exact)
         = Some (cond_Zopp sx m).
Proof.
  intros HM He HK. unfold binary_round_aux.
  destruct (shr_fexp_exact M e HM) as [Hr1 He1].
  pose proof (shr_fexp_exponent M e HM He HK) as Hle1.
  destruct (shr_fexp F32.prec F32.emax M e loc_Exact) as [r1 e1].
  cbn [fst snd] in Hr1, He1.
  set (n1 := Z.max (fexp F32.prec F32.emax (Zdigits2 M + e) - e) 0) in *.
  set (m1 := round_nearest_even (shr_m r1) (loc_of_shr_record r1)).
  assert (Hm1 : 0 <= m1 <= 32767 * 2 ^ (- e1)).
  { apply (round_nearest_even_le M n1 r1); [done|lia|done|].
    rewrite <- Z.mul_assoc, <- Z.pow_add_r by lia.
    replace (- e1 + n1) with (- e) by lia. done. }
  assert (He1' : e1 <= -9) by lia.
  destruct (shr_fexp_exact m1 e1 (proj1 Hm1)) as [[Hr2 _] He2].
  pose proof (shr_fexp_exponent m1 e1 (proj1 Hm1) He1' (proj2 Hm1)) as Hle2.
  destruct (shr_fexp F32.prec F32.emax m1 e1 loc_Exact) as [r2 e2].
  cbn [fst snd] in Hr2, He2.
  set (n2 := Z.max (fexp F32.prec F32.emax (Zdigits2 m1 + e1) - e1) 0) in *.
  assert (Hm2 : 0 <= shr_m r2 <= 32767 * 2 ^ (- e2)).
  { rewrite Hr2.
    assert (0 < 2 ^ n2) by (apply Z.pow_pos_nonneg; lia).
    split; [apply Z.div_pos; lia|].
    apply Z.div_le_upper_bound; [lia|].
    rewrite (Z.mul_comm (2 ^ n2)), <- Z.mul_assoc, <- Z.pow_add_r by lia.
    replace (- e2 + n2) with (- e1) by lia. lia. }
  destruct (shr_m r2) as [|m|m]; [|clear Hr2|lia].
  { exists 0. split; [lia|]. by intros []. }
  replace (e2 <=? F32.emax - F32.prec) with true
    by (symmetry; apply Z.leb_le; unfold F32.emax, F32.prec; lia).
  exists (Z.shiftl (Z.pos m) e2). split; [|done].
  rewrite <- (Z.opp_involutive e2), Z.shiftl_opp_r.
  rewrite Z.shiftr_div_pow2 by lia.
  assert (0 < 2 ^ (- e2)) by (apply Z.pow_pos_nonneg; lia).
  split; [apply Z.div_pos; lia|].
  apply Z.div_le_upper_bound; lia.
Qed.

(** The PCM value of a finite sample in the unit range is its sign applied
    to a magnitude that does not depend on the sign. *)
Lemma pcm_sample_sign_magnitude sx mx ex :
  F32.valid (S754_finite sx mx ex) = true ->
  F32.leb F32.minus_one (S754_finite sx mx ex) = true ->
  F32.leb (S754_finite sx mx ex) F32.one = true ->
  exists m,
    0 <= m <= 32767
    /\ forall sx', pcm_sample (S754_finite sx' mx ex) = cond_Zopp sx' m.
Proof.
  intros Hvalid Hlo Hhi.
  destruct (unit_range_mantissa sx mx ex Hvalid Hlo Hhi) as [Hex Hmx].
  destruct (binary_round_aux_magnitude (Z.pos (mx * 16776704)) (ex + -9))
    as (m & Hm & Htrunc); [lia|lia| |].
  { rewrite Pos2Z.inj_mul.
    replace (- (ex + -9)) with (- ex + 9) by lia.
    rewrite Z.pow_add_r by lia. change (2 ^ 9) with 512. lia. }
  exists m. split; [done|]. intros sx'.
  unfold pcm_sample. apply astype_int16_small.
  - rewrite f32_32767. unfold F32.mul. cbn [SFmul].
    by rewrite xorb_false_r, Htrunc.
  - destruct sx'; cbn [cond_Zopp]; lia.
Qed.

(** X16: the conversion is odd on the unit range: the opposite sample has the
    opposite PCM value. *)
Theorem pcm_sample_opposite (s : sample) :
  F32.valid s = true ->
  F32.leb F32.minus_one s = true ->
  F32.leb s F32.one = true ->
  pcm_sample (SFopp s) = - pcm_sample s.
Proof.
  intros Hvalid Hlo Hhi.
  destruct s as [sx|sx| |sx mx ex].
  - by destruct sx.
  - rewrite f32_minus_one in Hlo. rewrite f32_one in Hhi.
    destruct sx; [by cbn in Hlo|by cbn in Hhi].
  - rewrite f32_one in Hhi. by cbn in Hhi.
  - destruct (pcm_sample_sign_magnitude sx mx ex Hvalid Hlo Hhi)
      as (m & _ & Hm).
    cbn [SFopp]. rewrite !Hm. destruct sx; cbn [negb cond_Zopp]; lia.
Qed.

Lemma pcm_sample_opposite_witness :
  F32.valid F32.one = true
  /\ F32.leb F32.minus_one F32.one = true
  /\ F32.leb F32.one F32.one = true
  /\ pcm_sample (SFopp F32.one) = - pcm_sample F32.one.
Proof.
  assert (H1 : F32.valid F32.one = true) by reflexivity.
  assert (H2 : F32.leb F32.minus_one F32.one = true) by reflexivity.
  assert (H3 : F32.leb F32.one F32.one = true) by reflexivity.
  split; [exact H1|]. split; [exact H2|]. split; [exact H3|].
  exact (pcm_sample_opposite F32.one H1 H2 H3).
Defined.

(** X17: the conversion keeps the sign: a sample between 0 and 1 has a PCM
    value between 0 and 32767. *)
Theorem pcm_sample_nonnegative (s : sample) :
  F32.valid s = true ->
  F32.leb (S754_zero false) s = true ->
  F32.leb s F32.one = true ->
  0 <= pcm_sample s <= 32767.
Proof.
  intros Hvalid Hlo Hhi.
  destruct s as [sx|sx| |sx mx ex].
  - by destruct sx.
  - rewrite f32_one in Hhi. destruct sx; [by cbn in Hlo|by cbn in Hhi].
  - by cbn in Hlo.
  - destruct sx; [by cbn in Hlo|].
    destruct (pcm_sample_sign_magnitude false mx ex Hvalid) as (m & Hm & Hpcm);
      [by rewrite f32_minus_one|done|].
    by rewrite (Hpcm false).
Qed.

Lemma pcm_sample_nonnegative_witness :
  let half := S754_finite false 8388608 (-24) in
  F32.valid half = true
  /\ F32.leb (S754_zero false) half = true
  /\ F32.leb half F32.one = true
  /\ 0 <= pcm_sample half <= 32767.
Proof.
  intros half.
  assert (H1 : F32.valid half = true) by reflexivity.
  assert (H2 : F32.leb (S754_zero false) half = true) by reflexivity.
  assert (H3 : F32.leb half F32.one = true) by reflexivity.
  split; [exact H1|]. split; [exact H2|]. split; [exact H3|].
  exact (pcm_sample_nonnegative half H1 H2 H3).
Defined.
